(** * The encrypted document store of vault: [src/node/local_store.js]

    A shallow embedding of [LocalStore] and of the canonicaliser [sort] it
    applies before every dump, with the properties the specification states
    about them.

    Modelling choices.
    - A JavaScript object is the list of its own enumerable properties in
      enumeration order: the array-index keys first, in ascending numeric
      order, then the other keys in insertion order.  [obj_set] defines an
      own property, [obj_assign] is the assignment [object[key] = v].
    - Every object inherits from [Object.prototype]: a read [object[key]]
      with a computed key ([get]) finds the own property, and otherwise
      the member of [Object.prototype] of that name, if there is one.
      The prototype of an object is not part of its model: an assignment
      to [__proto__], which changes it, adds no own property, and what
      later reads find through the changed prototype is not modelled.
      Nor are [length] and the members that sequences, strings, numbers
      and booleans inherit from their own prototypes.
    - Strings are sequences of code units ([string]); the default
      comparison of [Array.prototype.sort] is [String.le].
    - Values are JSON values; numbers are the integers that a JavaScript
      number holds exactly (magnitude at most [2^53]), which ToString
      writes in plain decimal.
    - The callback-passing style of the source is kept: every operation
      takes its callback and ends by calling it, or in a [TypeError] that
      nothing catches.  The reads, writes and cipher calls are recorded in
      the trace of the state.
    - The document a store works on is an object on a heap, so that the
      cache and a running operation can refer to the same object. *)

From Stdlib Require Import ZArith Lia Ascii.
From stdpp Require Import base option list sorting strings pretty.


(** ** JSON values and JavaScript objects *)

#[local] Unset Elimination Schemes.

Inductive value : Type :=
| VNull
| VBool (b : bool)
| VNum (n : Z)
| VStr (s : string)
| VArr (elements : list value)
| VObj (properties : list (string * value)).

#[local] Set Elimination Schemes.

Definition obj : Type := list (string * value).

(** Induction over values, with the hypothesis available for every element
    of a sequence and every property value of a mapping. *)
Definition value_ind (P : value → Prop)
    (Hnull : P VNull)
    (Hbool : ∀ b, P (VBool b))
    (Hnum : ∀ n, P (VNum n))
    (Hstr : ∀ s, P (VStr s))
    (Harr : ∀ l, Forall P l → P (VArr l))
    (Hobj : ∀ o, Forall (λ e, P e.2) o → P (VObj o)) : ∀ v, P v :=
  fix go (v : value) : P v :=
    match v with
    | VNull => Hnull
    | VBool b => Hbool b
    | VNum n => Hnum n
    | VStr s => Hstr s
    | VArr l =>
        Harr l ((fix elems (l : list value) : Forall P l :=
                   match l with
                   | [] => Forall_nil_2 P
                   | x :: l' => Forall_cons_2 P x l' (go x) (elems l')
                   end) l)
    | VObj o =>
        Hobj o ((fix props (o : obj) : Forall (λ e, P e.2) o :=
                   match o with
                   | [] => Forall_nil_2 _
                   | e :: o' => Forall_cons_2 (λ e, P e.2) e o' (go e.2) (props o')
                   end) o)
    end.

(** The value of the own property [key], [None] when the object does not
    own it. *)
Fixpoint obj_get (o : obj) (key : string) : option value :=
  match o with
  | [] => None
  | (k, v) :: o' => if decide (k = key) then Some v else obj_get o' key
  end.

(** [Object.keys(object)]. *)
Definition obj_keys (o : obj) : list string := o.*1.

(** [object.hasOwnProperty(key)]. *)
Definition hasOwnProperty (o : obj) (key : string) : bool :=
  bool_decide (key ∈ obj_keys o).

(** Array-index keys: the canonical decimal strings below [2^32 - 1]. *)
Fixpoint digits_value (acc : N) (s : string) : option N :=
  match s with
  | EmptyString => Some acc
  | String c s' =>
      match Ascii.is_nat c with
      | Some d => digits_value (10 * acc + N.of_nat d)%N s'
      | None => None
      end
  end.

Definition array_index (key : string) : option N :=
  match key with
  | EmptyString => None
  | String "0"%char EmptyString => Some 0%N
  | String "0"%char _ => None
  | _ =>
      match digits_value 0 key with
      | Some n => if (n <? 4294967295)%N then Some n else None
      | None => None
      end
  end.

(** Assignment to a property the object already owns keeps its place. *)
Fixpoint obj_replace (o : obj) (key : string) (v : value) : obj :=
  match o with
  | [] => []
  | (k, w) :: o' =>
      if decide (k = key) then (k, v) :: o' else (k, w) :: obj_replace o' key v
  end.

(** A new array-index key goes after the smaller array-index keys. *)
Fixpoint obj_insert_index (n : N) (o : obj) (key : string) (v : value) : obj :=
  match o with
  | [] => [(key, v)]
  | (k, w) :: o' =>
      match array_index k with
      | Some m =>
          if (m <? n)%N then (k, w) :: obj_insert_index n o' key v
          else (key, v) :: o
      | None => (key, v) :: o
      end
  end.

(** Defining the own property [key]: what the assignment
    [object[key] = v] does for every key but [__proto__]. *)
Definition obj_set (o : obj) (key : string) (v : value) : obj :=
  if hasOwnProperty o key then obj_replace o key v
  else match array_index key with
       | Some n => obj_insert_index n o key v
       | None => o ++ [(key, v)]
       end.

(** [object[key] = v].  For an object that does not own it, [__proto__]
    names the accessor inherited from [Object.prototype]: the assignment
    goes to its setter, which changes the prototype of the object (or
    does nothing, when [v] is a primitive) and adds no own property. *)
Definition obj_assign (o : obj) (key : string) (v : value) : obj :=
  if bool_decide (key = "__proto__") && negb (hasOwnProperty o key) then o
  else obj_set o key v.

(** [delete object[key]]. *)
Fixpoint obj_delete (o : obj) (key : string) : obj :=
  match o with
  | [] => []
  | (k, v) :: o' =>
      if decide (k = key) then obj_delete o' key else (k, v) :: obj_delete o' key
  end.

(** ** The canonicaliser: [sort] (lines 200-212)

    [keys.sort()] orders the keys by code units; the loop then assigns
    them to the fresh [copy] in that order.  An own key [__proto__] of the
    input, as [JSON.parse] makes one, is assigned like the others, and so
    is not an own key of the copy. *)

Definition js_sort (keys : list string) : list string :=
  merge_sort String.le keys.

(** The loop [for (i...) copy[keys[i]] = sorted[keys[i]]], where [sorted]
    holds the already canonicalised property values. *)
Definition copy_keys (sorted : obj) (keys : list string) (copy : obj) : obj :=
  fold_left
    (λ copy k, match obj_get sorted k with
               | Some v => obj_assign copy k v
               | None => copy
               end)
    keys copy.

Definition sorted_copy (sorted : obj) : obj :=
  copy_keys sorted (js_sort (obj_keys sorted)) [].

Fixpoint sort (object : value) : value :=
  match object with
  | VArr l => VArr (map sort l)
  | VObj o => VObj (sorted_copy (map (λ e, (e.1, sort e.2)) o))
  | _ => object
  end.

(** Keys within each mapping are unique (the invariant of the data model,
    and of every JavaScript object). *)
Fixpoint wf (v : value) : bool :=
  match v with
  | VArr l => forallb wf l
  | VObj o => bool_decide (NoDup (obj_keys o)) && forallb (λ e, wf e.2) o
  | _ => true
  end.

(** Two values with the same content: the same keys in every mapping,
    whatever their order, and the same elements in every sequence, in the
    same order. *)
Fixpoint same_content (a b : value) : bool :=
  match a, b with
  | VNull, VNull => true
  | VBool x, VBool y => bool_decide (x = y)
  | VNum x, VNum y => bool_decide (x = y)
  | VStr x, VStr y => bool_decide (x = y)
  | VArr l1, VArr l2 =>
      (fix elems (l1 l2 : list value) : bool :=
         match l1, l2 with
         | [], [] => true
         | x :: l1', y :: l2' => same_content x y && elems l1' l2'
         | _, _ => false
         end) l1 l2
  | VObj o1, VObj o2 =>
      bool_decide (length o1 = length o2) &&
      forallb (λ e, match obj_get o2 e.1 with
                    | Some w => same_content e.2 w
                    | None => false
                    end) o1
  | _, _ => false
  end.

(** ** Truthiness, property access and key conversion *)

(** The own enumerable properties of a value: what [for (key in v)] and
    [Object.keys(v)] enumerate. *)
Definition props (v : value) : obj :=
  match v with
  | VObj o => o
  | VArr l => imap (λ i x, (pretty i, x)) l
  | VStr s => imap (λ i c, (pretty i, VStr (String c EmptyString)))
                   (String.list_ascii_of_string s)
  | _ => []
  end.

(** The own property [key] of a value [v] that is neither [null] nor
    [undefined]: what [v.key] is for the fixed keys of the document
    ([global], [services], [sources], [__current__]), none of which is
    the name of an inherited member. *)
Definition prop (v : value) (key : string) : option value :=
  obj_get (props v) key.

(** The names of the members of [Object.prototype]: eleven functions and
    the accessor [__proto__]. *)
Definition Object_prototype : list string :=
  ["constructor"; "__defineGetter__"; "__defineSetter__"; "hasOwnProperty";
   "__lookupGetter__"; "__lookupSetter__"; "isPrototypeOf";
   "propertyIsEnumerable"; "toString"; "valueOf"; "__proto__";
   "toLocaleString"].

(** What a read [v[key]] finds: an own property, or the member of
    [Object.prototype] of that name. *)
Inductive member : Type :=
| Own (x : value)
| Inherited (name : string).

(** [v[key]] for a computed key and a value [v] that is neither [null]
    nor [undefined]; [None] is [undefined].  For a sequence or a
    primitive, what its own prototype adds to [Object.prototype] is left
    out. *)
Definition get (v : value) (key : string) : option member :=
  match prop v key with
  | Some x => Some (Own x)
  | None =>
      if bool_decide (key ∈ Object_prototype) then Some (Inherited key)
      else None
  end.

(** [v[key] = x].  An assignment to a property of a primitive is dropped;
    a sequence with named properties is not a JSON value, and is left as
    it is too. *)
Definition set_prop (v : value) (key : string) (x : value) : value :=
  match v with
  | VObj o => VObj (obj_assign o key x)
  | _ => v
  end.

(** [delete v[key]]. *)
Definition delete_prop (v : value) (key : string) : value :=
  match v with
  | VObj o => VObj (obj_delete o key)
  | _ => v
  end.

(** ToBoolean; [None] is [undefined]. *)
Definition truthy (v : option value) : bool :=
  match v with
  | None | Some VNull => false
  | Some (VBool b) => b
  | Some (VNum n) => negb (n =? 0)%Z
  | Some (VStr s) => negb (bool_decide (s = EmptyString))
  | Some (VArr _) | Some (VObj _) => true
  end.

(** [v || {}]. *)
Definition or_empty (v : option value) : value :=
  match v with
  | Some x => if truthy v then x else VObj []
  | None => VObj []
  end.

(** ToBoolean of what a read finds: the inherited members are functions
    and, for [__proto__], the object [Object.prototype]. *)
Definition truthy_member (m : option member) : bool :=
  match m with
  | Some (Own x) => truthy (Some x)
  | Some (Inherited _) => true
  | None => false
  end.

(** [m || {}] where it is the source of a [for (key in ...)] loop: an
    inherited member has no enumerable property, and stands as [{}]. *)
Definition member_or_empty (m : option member) : value :=
  match m with
  | Some (Own x) => or_empty (Some x)
  | Some (Inherited _) | None => VObj []
  end.

(** ToString, as applied to a value used as a property key; a number is
    written in plain decimal, as ToString writes the integers of a
    magnitude at most [2^53]. *)
Fixpoint to_key (v : value) : string :=
  match v with
  | VNull => "null"
  | VBool true => "true"
  | VBool false => "false"
  | VNum n => pretty n
  | VStr s => s
  | VArr l =>
      (fix join (l : list value) : string :=
         match l with
         | [] => EmptyString
         | [x] => match x with VNull => EmptyString | _ => to_key x end
         | x :: l' =>
             match x with VNull => EmptyString | _ => to_key x end
             +:+ "," +:+ join l'
         end) l
  | VObj _ => "[object Object]"
  end.

(** Modelled from the spec: [Vault.extend(target, source)] of
    [lib/vault.js], which is not among the sources.  The spec fixes the
    outcome of the two places that build a mapping with it: in
    [saveGlobals], where [settings] is copied before [saved], new settings
    override saved keys; in [serviceSettings], where the service mapping is
    copied before [global], service keys take precedence.  So [extend]
    copies into [target], as own properties, the properties of [source]
    that [target] does not own yet, and leaves the properties [target]
    owns untouched. *)
Definition extend (target : obj) (source : value) : obj :=
  fold_left
    (λ target e, if hasOwnProperty target e.1 then target
                 else obj_set target e.1 e.2)
    (props source) target.

(** ** Errors *)

Inductive error : Type := Error (message : string).

Definition dquote : string := String "034"%char EmptyString.

(** [new Error('Your .vault file is unreadable; ...')]. *)
Definition StoreUnreadable : error :=
  Error "Your .vault file is unreadable; check your VAULT_KEY and VAULT_PATH settings".

(** [new Error('Service "' + service + '" is not configured')]. *)
Definition ServiceNotConfigured (service : string) : error :=
  Error ("Service " +:+ dquote +:+ service +:+ dquote +:+ " is not configured").

Definition ENOENT : error := Error "ENOENT: no such file or directory".

(** ** The store and its environment *)

(** The cipher adapter: each call reports an error or a result. *)
Record Cipher : Type := {
  encrypt : string → error + string;
  decrypt : string → error + string;
}.

Inductive event : Type :=
| ReadFile
| Decrypt (ciphertext : string)
| Encrypt (plaintext : string)
| WriteFile (data : option string)
| Uncaught.

(** A store instance ([_cache], [_configCache], [_source]), the file at
    [_path], the JavaScript objects it holds references to, and what it
    has done so far.  A reference is an index in [heap]: two references
    are the same object when they are equal. *)
Record state : Type := State {
  (** the content of the file at [_path], if there is one *)
  file : option string;
  (** the error [fs.readFile] reports, if it is to fail although the
      file is there *)
  read_fault : option error;
  (** the error [fs.writeFile] reports, if it is to fail; the file then
      keeps its content *)
  write_fault : option error;
  heap : list value;
  _cache : bool;
  _configCache : option nat;
  _source : option string;
  trace : list event;
}.

Definition log (ev : event) (st : state) : state :=
  State (file st) (read_fault st) (write_fault st) (heap st)
        (_cache st) (_configCache st) (_source st) (trace st ++ [ev]).

Definition set_file (content : string) (st : state) : state :=
  State (Some content) (read_fault st) (write_fault st) (heap st)
        (_cache st) (_configCache st) (_source st) (trace st).

Definition set_heap (h : list value) (st : state) : state :=
  State (file st) (read_fault st) (write_fault st) h
        (_cache st) (_configCache st) (_source st) (trace st).

Definition set_configCache (config : nat) (st : state) : state :=
  State (file st) (read_fault st) (write_fault st) (heap st)
        (_cache st) (Some config) (_source st) (trace st).

(** [setSource] (lines 18-20). *)
Definition setSource (source : string) (st : state) : state :=
  State (file st) (read_fault st) (write_fault st) (heap st)
        (_cache st) (_configCache st) (Some source) (trace st).

(** The object a reference denotes. *)
Definition deref (st : state) (r : nat) : value :=
  default VNull (heap st !! r).

(** A fresh object. *)
Definition alloc (v : value) (st : state) : nat * state :=
  (length (heap st), set_heap (heap st ++ [v]) st).

(** [config[key] = x] on the object [config] refers to. *)
Definition assign (config : nat) (key : string) (x : value) (st : state) : state :=
  set_heap (<[config := set_prop (deref st config) key x]> (heap st)) st.

(** [fs.readFile(this._path, ...)]: an error when the file is absent or
    cannot be read, its content otherwise. *)
Definition readFile (st : state) : error + string :=
  match read_fault st with
  | Some e => inl e
  | None =>
      match file st with
      | Some content => inr content
      | None => inl ENOENT
      end
  end.

(** [this._cache && this._configCache]. *)
Definition cached (st : state) : option nat :=
  if _cache st then
    match _configCache st with
    | Some config => if truthy (heap st !! config) then Some config else None
    | None => None
    end
  else None.

Definition LOCAL : string := "local".

(** [/^__.+__$/.test(s)]: [.] matches any code unit but a line
    terminator. *)
Definition line_terminator (c : ascii) : bool :=
  bool_decide (c = "010"%char) || bool_decide (c = "013"%char).

Definition is_metadata (s : string) : bool :=
  let cs := String.list_ascii_of_string s in
  let n := length cs in
  bool_decide (5 ≤ n) &&
  bool_decide (take 2 cs = ["_"; "_"]%char) &&
  bool_decide (drop (n - 2) cs = ["_"; "_"]%char) &&
  forallb (λ c, negb (line_terminator c)) (take (n - 4) (drop 2 cs)).

(** [{global: {}, services: {}, sources: {}}]. *)
Definition empty_document : value :=
  VObj [("global", VObj []); ("services", VObj []); ("sources", VObj [])].

(** [this._source] where it is the left operand of [||]: the override,
    when it is set and truthy. *)
Definition override (source : option string) : option value :=
  match source with
  | Some s => if truthy (Some (VStr s)) then Some (VStr s) else None
  | None => None
  end.

(** [this._source || sources.__current__]. *)
Definition candidate_source (override : option string) (sources : value)
    : option value :=
  match override with
  | Some s => if truthy (Some (VStr s)) then Some (VStr s)
              else prop sources "__current__"
  | None => prop sources "__current__"
  end.

(** Lines 45-46 of [listSources]:
    [if (!current || !sources[current]) current = LocalStore.LOCAL]. *)
Definition current_source (override : option string) (sources : value) : value :=
  let current := candidate_source override sources in
  match current with
  | Some c =>
      if negb (truthy current)
         || negb (truthy_member (get sources (to_key c)))
      then VStr LOCAL else c
  | None => VStr LOCAL
  end.

(** A property of the document that is a mapping, or is not there. *)
Definition is_mapping_or_absent (v : option value) : bool :=
  match v with
  | None | Some (VObj _) => true
  | _ => false
  end.

Section LocalStore.
Context (cipher : Cipher).
Context (JSON_parse : string → option value).
Context (JSON_stringify : value → string).
(** What a run ends in, and the end of a run in which a [TypeError] is
    thrown and never caught: no callback is called. *)
Context {Ans : Type} (TypeError : state → Ans).

(** [LocalStore.prototype.load] (lines 147-170). *)
Definition load (callback : error + nat → state → Ans) (st : state) : Ans :=
  match cached st with
  | Some config => callback (inr config) st
  | None =>
      let st := log ReadFile st in
      match readFile st with
      | inl _ =>
          let '(config, st) := alloc empty_document st in
          callback (inr config) st
      | inr content =>
          let st := log (Decrypt content) st in
          let err := StoreUnreadable in
          match decrypt cipher content with
          | inl _ => callback (inl err) st
          | inr plaintext =>
              match JSON_parse plaintext with
              | None => callback (inl err) st
              | Some config =>
                  let '(config, st) := alloc config st in
                  callback (inr config) (set_configCache config st)
              end
          end
      end
  end.

(** [LocalStore.prototype.dump] (lines 172-181).  The [error] of the
    encrypt callback is not looked at; [ciphertext] is [undefined] when
    encryption failed, and [fs.writeFile], as in the versions of Node the
    code was written for, writes its string form. *)
Definition dump (config : nat) (callback : option error → state → Ans)
    (st : state) : Ans :=
  let config := sort (deref st config) in
  let json := JSON_stringify config in
  let st := log (Encrypt json) st in
  let ciphertext :=
    match encrypt cipher json with
    | inr ciphertext => Some ciphertext
    | inl _ => None
    end in
  let st := log (WriteFile ciphertext) st in
  match write_fault st with
  | Some e => callback (Some e) st
  | None => callback None (set_file (default "undefined" ciphertext) st)
  end.

(** [LocalStore.prototype.saveGlobals] (lines 80-93). *)
Definition saveGlobals (settings : value)
    (callback : option error → state → Ans) : state → Ans :=
  load (λ r,
    match r with
    | inl error => callback (Some error)
    | inr config => λ st,
        match deref st config with
        | VNull => TypeError (log Uncaught st)
        | d =>
            let saved := or_empty (prop d "global") in
            let updated := [] in
            let updated := extend updated settings in
            let updated := extend updated saved in
            let st := assign config "global" (VObj updated) st in
            dump config callback st
        end
    end).

(** [LocalStore.prototype.saveService] (lines 95-110). *)
Definition saveService (service : string) (settings : value)
    (callback : option error → state → Ans) : state → Ans :=
  load (λ r,
    match r with
    | inl error => callback (Some error)
    | inr config => λ st,
        match deref st config with
        | VNull => TypeError (log Uncaught st)
        | d =>
            let st := assign config "services" (or_empty (prop d "services")) st in
            match prop (deref st config) "services" with
            | None | Some VNull => TypeError (log Uncaught st)
            | Some services =>
                let saved := member_or_empty (get services service) in
                let updated := [] in
                let updated := extend updated settings in
                let updated := extend updated saved in
                let st := assign config "services"
                                 (set_prop services service (VObj updated)) st in
                dump config callback st
            end
        end
    end).

(** [LocalStore.prototype.deleteService] (lines 120-130). *)
Definition deleteService (service : string)
    (callback : option error → state → Ans) : state → Ans :=
  load (λ r,
    match r with
    | inl error => callback (Some error)
    | inr config => λ st,
        match deref st config with
        | VNull => TypeError (log Uncaught st)
        | d =>
            match prop d "services" with
            | Some services =>
                if negb (truthy (Some services))
                   || negb (truthy_member (get services service))
                then callback (Some (ServiceNotConfigured service)) st
                else
                  let st := assign config "services"
                                   (delete_prop services service) st in
                  dump config callback st
            | None => callback (Some (ServiceNotConfigured service)) st
            end
        end
    end).

(** [LocalStore.prototype.serviceSettings] (lines 132-145); the callback
    receives the settings, or [null] ([None]). *)
Definition serviceSettings (service : string) (includeGlobal : bool)
    (callback : error + option obj → state → Ans) : state → Ans :=
  load (λ r,
    match r with
    | inl error => callback (inl error)
    | inr config => λ st,
        match deref st config with
        | VNull => TypeError (log Uncaught st)
        | d =>
            let services := or_empty (prop d "services") in
            if negb includeGlobal
               && (negb (truthy (prop d "services"))
                   || negb (truthy_member (get services service)))
            then callback (inr None) st
            else
              let settings := [] in
              let settings :=
                extend settings (member_or_empty (get services service)) in
              let settings := extend settings (or_empty (prop d "global")) in
              callback (inr (Some settings)) st
        end
    end).

(** [LocalStore.prototype.listSources] (lines 37-50); the callback
    receives the names and the current source. *)
Definition listSources
    (callback : error + list string * value → state → Ans) : state → Ans :=
  load (λ r,
    match r with
    | inl error => callback (inl error)
    | inr config => λ st,
        match deref st config with
        | VNull => TypeError (log Uncaught st)
        | d =>
            let sources := or_empty (prop d "sources") in
            let sourceNames :=
              filter (λ s, is_metadata s = false) (obj_keys (props sources)) in
            let current := current_source (_source st) sources in
            callback (inr (sourceNames ++ [LOCAL], current)) st
        end
    end).

(** [Vault.extend(target, source)] on a property of the document, where
    [target] and [source] may be anything: [None] when
    [target.hasOwnProperty] throws, the value of [target] afterwards
    otherwise (a target that is not a mapping is left as it is). *)
Definition extend_value (target source : option value) : option (option value) :=
  match source with
  | None => Some target
  | Some source =>
      match props source with
      | [] => Some target
      | _ :: _ =>
          match target with
          | None | Some VNull => None
          | Some (VObj o) => Some (Some (VObj (extend o source)))
          | Some _ => Some target
          end
      end
  end.

(** [LocalStore.prototype.import] (lines 183-190). *)
Definition import (settings : value)
    (callback : option error → state → Ans) : state → Ans :=
  load (λ r,
    match r with
    | inl error => callback (Some error)
    | inr config => λ st,
        match deref st config, settings with
        | VNull, _ | _, VNull => TypeError (log Uncaught st)
        | d, _ =>
            match extend_value (prop d "global") (prop settings "global") with
            | None => TypeError (log Uncaught st)
            | Some global =>
                let st := match global with
                          | Some (VObj g) => assign config "global" (VObj g) st
                          | _ => st
                          end in
                match extend_value (prop d "services") (prop settings "services") with
                | None => TypeError (log Uncaught st)
                | Some services =>
                    let st := match services with
                              | Some (VObj s) => assign config "services" (VObj s) st
                              | _ => st
                              end in
                    dump config callback st
                end
            end
        end
    end).
End LocalStore.

(** Running an operation to the point where it calls its callback. *)
Inductive outcome (A : Type) : Type :=
| Called (args : A) (st : state)
| Threw (st : state).
Arguments Called {A} args st.
Arguments Threw {A} st.

Definition final {A : Type} (o : outcome A) : state :=
  match o with Called _ st | Threw st => st end.

(** The settings stored for a service: the own property [service] of
    [config.services || {}]. *)
Definition stored_settings (d : value) (service : string) : option value :=
  prop (or_empty (prop d "services")) service.

(** What has been sent to the cipher for encryption and to the file. *)
Definition is_write (ev : event) : bool :=
  match ev with
  | Encrypt _ | WriteFile _ => true
  | _ => false
  end.

Definition writes (st : state) : list event :=
  filter (λ ev, is_write ev = true) (trace st).

Section Sequences.
Context (cipher : Cipher) (JSON_parse : string → option value) {Ans : Type}.

End Sequences.


(** The current source as the specification words it: the explicit
    override if set, else [sources.__current__], else the local name when
    neither of the two resolves to a configured source, that is to a key
    of [sources] with a truthy value. *)
Definition resolves (sources : value) (name : option value) : bool :=
  match name with
  | Some c => truthy name && truthy (prop sources (to_key c))
  | None => false
  end.

Definition spec_current (override : option string) (sources : value) : value :=
  let override := match override with
                  | Some s => if truthy (Some (VStr s)) then Some (VStr s) else None
                  | None => None
                  end in
  if negb (resolves sources override)
     && negb (resolves sources (prop sources "__current__"))
  then VStr LOCAL
  else match override with
       | Some c => c
       | None => default (VStr LOCAL) (prop sources "__current__")
       end.

(** ** A concrete store, for the examples *)

(** A cipher that seals a plaintext by prefixing it with [!]. *)
Definition demo_cipher : Cipher := {|
  encrypt plaintext := inr (String "!"%char plaintext);
  decrypt ciphertext :=
    match ciphertext with
    | String "!"%char plaintext => inr plaintext
    | _ => inl (Error "Invalid signature")
    end;
|}.

(** A cipher whose encryption fails. *)
Definition failing_cipher : Cipher := {|
  encrypt _ := inl (Error "encryption failed");
  decrypt := decrypt demo_cipher;
|}.

Definition demo_document : value :=
  VObj [("global", VObj [("user", VStr "alice"); ("length", VNum 12)]);
        ("services", VObj [("github", VObj [("user", VStr "carol")])]);
        ("sources", VObj [("__current__", VStr "work");
                          ("work", VObj [("url", VStr "https://example.org")])])].

(** A parser and a printer that know two documents. *)
Definition demo_parse (plaintext : string) : option value :=
  if decide (plaintext = "{}") then Some (VObj [])
  else if decide (plaintext = "demo") then Some demo_document
  else None.

Definition demo_stringify (v : value) : string :=
  match v with
  | VObj [] => "{}"
  | _ => "demo"
  end.

Definition new_store (content : option string) (cache : bool) : state :=
  State content None None [] cache None None [].

(** A store whose file holds [demo_document] and has been loaded. *)
Definition demo_store : state :=
  State (Some "!demo") None None [demo_document] true (Some 0) None [].

Definition demo_sources : value :=
  VObj [("__current__", VStr "work");
        ("work", VObj [("url", VStr "https://example.org")])].

Definition demo_settings : value :=
  VObj [("user", VStr "bob"); ("symbol", VNum 1)].

(** The same document as [demo_document], its keys inserted in another
    order. *)
Definition demo_document_permuted : value :=
  VObj [("sources", VObj [("work", VObj [("url", VStr "https://example.org")]);
                          ("__current__", VStr "work")]);
        ("services", VObj [("github", VObj [("user", VStr "carol")])]);
        ("global", VObj [("length", VNum 12); ("user", VStr "alice")])].

(** ** The rest of the store operations *)

(** What [getStore] hands to its callback: the local store itself
    ([this]), or the object made by [new RemoteStore(...)]. *)
Inductive store (R : Type) : Type :=
| ThisStore
| Remote (remote : R).
Arguments ThisStore {R}.
Arguments Remote {R} remote.

(** [source === LocalStore.LOCAL]. *)
Definition is_local (source : value) : bool :=
  match source with
  | VStr s => bool_decide (s = LOCAL)
  | _ => false
  end.

Section LocalStoreRest.
Context (cipher : Cipher).
Context (JSON_parse : string → option value).
Context (JSON_stringify : value → string).
Context {Ans : Type} (TypeError : state → Ans).
(** [RemoteStore] is a free identifier of [local_store.js]: what
    [new RemoteStore(source, config)] makes is a parameter, [None] when
    the expression throws (as it does when nothing defines
    [RemoteStore]); [config] is [None] for [undefined]. *)
Context {R : Type} (RemoteStore : value → option member → option R).

(** [LocalStore.prototype.getName] (lines 14-16). *)
Definition getName : string := LOCAL.

(** [LocalStore.prototype.clear] (lines 22-31). *)
Definition clear (callback : option error → state → Ans) : state → Ans :=
  load cipher JSON_parse (λ r,
    match r with
    | inl error => callback (Some error)
    | inr config => λ st,
        match deref st config with
        | VNull => TypeError (log Uncaught st)
        | _ =>
            let st := assign config "global" (VObj []) st in
            let st := assign config "services" (VObj []) st in
            dump cipher JSON_stringify config callback st
        end
    end).

(** [LocalStore.prototype.getStore] (lines 52-62); [source] is [None]
    when the caller passes [undefined].  The document is looked at only
    when the source is not the local one. *)
Definition getStore (source : option value)
    (callback : error + store R → state → Ans) : state → Ans :=
  load cipher JSON_parse (λ r,
    match r with
    | inl error => callback (inl error)
    | inr config => λ st,
        match source with
        | Some src =>
            if negb (truthy source) || is_local src
            then callback (inr ThisStore) st
            else
              match deref st config with
              | VNull => TypeError (log Uncaught st)
              | d =>
                  match prop d "sources" with
                  | None | Some VNull => TypeError (log Uncaught st)
                  | Some sources =>
                      match RemoteStore src (get sources (to_key src)) with
                      | Some remote => callback (inr (Remote remote)) st
                      | None => TypeError (log Uncaught st)
                      end
                  end
              end
        | None => callback (inr ThisStore) st
        end
    end).

(** [LocalStore.prototype.currentStore] (lines 64-71).  In
    [this._source || (config.sources || {}).__current__] the document is
    looked at only when there is no override. *)
Definition currentStore (callback : error + store R → state → Ans)
    : state → Ans :=
  load cipher JSON_parse (λ r,
    match r with
    | inl error => callback (inl error)
    | inr config => λ st,
        match override (_source st) with
        | Some current => getStore (Some current) callback st
        | None =>
            match deref st config with
            | VNull => TypeError (log Uncaught st)
            | d =>
                let current := prop (or_empty (prop d "sources")) "__current__" in
                getStore current callback st
            end
        end
    end).

(** [LocalStore.prototype.listServices] (lines 73-78). *)
Definition listServices (callback : error + list string → state → Ans)
    : state → Ans :=
  load cipher JSON_parse (λ r,
    match r with
    | inl error => callback (inl error)
    | inr config => λ st,
        match deref st config with
        | VNull => TypeError (log Uncaught st)
        | d =>
            callback
              (inr (js_sort (obj_keys (props (or_empty (prop d "services"))))))
              st
        end
    end).

(** [LocalStore.prototype.deleteGlobals] (lines 112-118). *)
Definition deleteGlobals (callback : option error → state → Ans)
    : state → Ans :=
  load cipher JSON_parse (λ r,
    match r with
    | inl error => callback (Some error)
    | inr config => λ st,
        match deref st config with
        | VNull => TypeError (log Uncaught st)
        | _ =>
            let st := assign config "global" (VObj []) st in
            dump cipher JSON_stringify config callback st
        end
    end).

(** [LocalStore.prototype.export] (lines 192-198): the callback receives
    [{global: config.global, services: config.services}], here the pair
    of the two property values. *)
Definition export (callback : error + option value * option value → state → Ans)
    : state → Ans :=
  load cipher JSON_parse (λ r,
    match r with
    | inl error => callback (inl error)
    | inr config => λ st,
        match deref st config with
        | VNull => TypeError (log Uncaught st)
        | d => callback (inr (prop d "global", prop d "services")) st
        end
    end).
End LocalStoreRest.


(** A parser that reads [demo_stringify] back on the canonical form of
    [demo_document]. *)
Definition canonical_parse (plaintext : string) : option value :=
  if decide (plaintext = "demo") then Some (sort demo_document)
  else if decide (plaintext = "{}") then Some (VObj [])
  else None.

(** A store with caching disabled that holds [demo_document] in memory
    and nothing on disk yet. *)
Definition uncached_store : state :=
  State None None None [demo_document] false None None [].


(** [st'] differs from [st] by reads only: the file is as it was, nothing
    more has been encrypted or written, and the objects of [st] are
    still there, unchanged. *)
Definition untouched (st st' : state) : Prop :=
  file st' = file st ∧ writes st' = writes st ∧ heap st `prefix_of` heap st'.

(** [!source || source === LocalStore.LOCAL], the test of [getStore]. *)
Definition names_local (source : option value) : bool :=
  match source with
  | Some src => negb (truthy source) || is_local src
  | None => true
  end.

(** A [RemoteStore] that keeps the two arguments it is made with. *)
Definition demo_RemoteStore (source : value) (config : option member)
    : option (value * option member) :=
  Some (source, config).

(** What the caller of the examples learns: which callback was called,
    with what and in which state, or that the call threw. *)
Inductive answer : Type :=
| Finished (error : option error) (st : state)
| Settings (result : error + option obj) (st : state)
| Sources (result : error + list string * value) (st : state)
| Names (result : error + list string) (st : state)
| Store (result : error + store (value * option member)) (st : state)
| Exported (result : error + option value * option value) (st : state)
| Loaded (result : error + nat) (st : state)
| Thrown (st : state).

(** A store whose cached document holds two services, saved in
    descending order. *)
Definition services_store : state :=
  State None None None
        [VObj [("services", VObj [("zeta", VObj [("length", VNum 8)]);
                                  ("alpha", VObj [])])]]
        true (Some 0) None [].

(** A store whose file decrypts and parses to [null]. *)
Definition null_parse (plaintext : string) : option value :=
  if decide (plaintext = "null") then Some VNull else None.

Definition null_store : state := new_store (Some "!null") true.

(** A store whose document has a source named like the local one. *)
Definition local_named_store : state :=
  State None None None
        [VObj [("sources", VObj [("local", VObj [("url", VStr "https://example.org")])])]]
        true (Some 0) None [].

(** ** Names and documents the properties are stated for *)

(** A chosen source name that is a string, or [undefined], and not the
    name of a member of [Object.prototype]. *)
Definition plain_name (name : option value) : bool :=
  match name with
  | None => true
  | Some (VStr s) => bool_decide (s ∉ Object_prototype)
  | Some _ => false
  end.

(** No mapping of the value has an own key [__proto__]. *)
Fixpoint proto_free (v : value) : bool :=
  match v with
  | VArr l => forallb proto_free l
  | VObj o =>
      bool_decide ("__proto__" ∉ obj_keys o) && forallb (λ e, proto_free e.2) o
  | _ => true
  end.


(** * Properties *)

(** ** Objects as property lists *)

Lemma obj_get_None o key : obj_get o key = None ↔ key ∉ obj_keys o.
Proof.
  unfold obj_keys. induction o as [|[k v] o IH]; simpl.
  - split; [intros _; apply not_elem_of_nil | done].
  - rewrite not_elem_of_cons. destruct (decide (k = key)) as [->|Hne].
    + split; [done | intros [? _]; done].
    + rewrite IH. split; [intros ?; split; [congruence | done] | intros [_ ?]; done].
Qed.

Lemma obj_get_Some_elem o key v : obj_get o key = Some v → (key, v) ∈ o.
Proof.
  induction o as [|[k w] o IH]; simpl; [done|].
  destruct (decide (k = key)) as [->|Hne].
  - intros [= ->]. left.
  - intros H. right. auto.
Qed.

Lemma obj_get_is_Some o key : key ∈ obj_keys o → is_Some (obj_get o key).
Proof.
  intros Hin. destruct (obj_get o key) eqn:E; [eauto|].
  apply obj_get_None in E. done.
Qed.

Lemma obj_get_app o1 o2 key :
  obj_get (o1 ++ o2) key =
  match obj_get o1 key with Some v => Some v | None => obj_get o2 key end.
Proof.
  induction o1 as [|[k v] o1 IH]; simpl; [done|].
  destruct (decide (k = key)); done.
Qed.

Lemma obj_get_replace o key v key' :
  key ∈ obj_keys o →
  obj_get (obj_replace o key v) key' =
  if decide (key = key') then Some v else obj_get o key'.
Proof.
  unfold obj_keys. induction o as [|[k w] o IH]; simpl.
  - intros H. by apply elem_of_nil in H.
  - intros H. destruct (decide (k = key)) as [->|Hne]; simpl.
    + destruct (decide (key = key')); done.
    + apply elem_of_cons in H as [?|H]; [congruence|].
      rewrite (IH H). destruct (decide (k = key')) as [->|?]; [|done].
      destruct (decide (key = key')); congruence.
Qed.

Lemma obj_get_insert_index n o key v key' :
  key ∉ obj_keys o →
  obj_get (obj_insert_index n o key v) key' =
  if decide (key = key') then Some v else obj_get o key'.
Proof.
  unfold obj_keys. induction o as [|[k w] o IH]; simpl; intros Hnotin.
  - done.
  - apply not_elem_of_cons in Hnotin as [Hne Hnotin].
    destruct (array_index k) as [m|]; [destruct (m <? n)%N|]; simpl;
      try (destruct (decide (key = key')); done).
    rewrite (IH Hnotin).
    destruct (decide (k = key')) as [->|?]; [|done].
    destruct (decide (key = key')); congruence.
Qed.

Lemma obj_get_set o key v key' :
  obj_get (obj_set o key v) key' =
  if decide (key = key') then Some v else obj_get o key'.
Proof.
  unfold obj_set, hasOwnProperty. case_bool_decide as Hin.
  - by apply obj_get_replace.
  - destruct (array_index key).
    + by apply obj_get_insert_index.
    + rewrite obj_get_app. simpl.
      destruct (decide (key = key')) as [<-|?].
      * apply obj_get_None in Hin. by rewrite Hin.
      * by destruct (obj_get o key').
Qed.

Lemma obj_keys_replace o key v : obj_keys (obj_replace o key v) = obj_keys o.
Proof.
  unfold obj_keys. induction o as [|[k w] o IH]; csimpl; [done|].
  destruct (decide (k = key)); csimpl; [done | by rewrite IH].
Qed.

Lemma obj_keys_insert_index n o key v :
  obj_keys (obj_insert_index n o key v) ≡ₚ key :: obj_keys o.
Proof.
  unfold obj_keys. induction o as [|[k w] o IH]; csimpl; [done|].
  destruct (array_index k) as [m|]; [destruct (m <? n)%N|]; csimpl; try done.
  rewrite IH. apply Permutation_swap.
Qed.

Lemma obj_keys_set_new o key v :
  key ∉ obj_keys o → obj_keys (obj_set o key v) ≡ₚ key :: obj_keys o.
Proof.
  intros Hnotin. unfold obj_set, hasOwnProperty.
  rewrite bool_decide_eq_false_2 by done.
  destruct (array_index key).
  - apply obj_keys_insert_index.
  - unfold obj_keys. rewrite fmap_app. simpl.
    by rewrite <-Permutation_cons_append.
Qed.

Lemma obj_keys_set_old o key v :
  key ∈ obj_keys o → obj_keys (obj_set o key v) = obj_keys o.
Proof.
  intros Hin. unfold obj_set, hasOwnProperty.
  rewrite bool_decide_eq_true_2 by done. apply obj_keys_replace.
Qed.

Lemma obj_get_map (f : value → value) o key :
  obj_get (map (λ e, (e.1, f e.2)) o) key = f <$> obj_get o key.
Proof.
  induction o as [|[k v] o IH]; simpl; [done|].
  destruct (decide (k = key)); done.
Qed.

Lemma obj_keys_map (f : value → value) o :
  obj_keys (map (λ e, (e.1, f e.2)) o) = obj_keys o.
Proof.
  unfold obj_keys. induction o as [|[k v] o IH]; csimpl; [done | by rewrite IH].
Qed.

Lemma elem_of_obj_keys_set o key v key' :
  key' ∈ obj_keys (obj_set o key v) ↔ key' = key ∨ key' ∈ obj_keys o.
Proof.
  destruct (decide (key ∈ obj_keys o)) as [Hin|Hnotin].
  - rewrite obj_keys_set_old by done. split; [by right|].
    by intros [->|?].
  - rewrite obj_keys_set_new by done. apply elem_of_cons.
Qed.

Lemma obj_get_delete o key key' :
  obj_get (obj_delete o key) key' =
  if decide (key = key') then None else obj_get o key'.
Proof.
  induction o as [|[k v] o IH]; simpl.
  - by destruct (decide (key = key')).
  - destruct (decide (k = key)) as [->|Hne]; simpl; rewrite IH.
    + destruct (decide (key = key')); done.
    + destruct (decide (k = key')) as [->|?]; [|done].
      by rewrite decide_False by congruence.
Qed.

Lemma elem_of_obj_keys_delete o key key' :
  key' ∈ obj_keys (obj_delete o key) ↔ key' ≠ key ∧ key' ∈ obj_keys o.
Proof.
  split.
  - intros Hin. apply obj_get_is_Some in Hin as [v Hv].
    rewrite obj_get_delete in Hv. destruct (decide (key = key')) as [->|?]; [done|].
    split; [done|]. destruct (decide (key' ∈ obj_keys o)) as [|Hn]; [done|].
    apply obj_get_None in Hn. congruence.
  - intros [Hne Hin]. destruct (decide (key' ∈ obj_keys (obj_delete o key)))
      as [|Hn]; [done|].
    apply obj_get_None in Hn. rewrite obj_get_delete in Hn.
    rewrite decide_False in Hn by done. apply obj_get_None in Hn. done.
Qed.

Lemma obj_keys_delete o key :
  obj_keys (obj_delete o key) = filter (λ k, k ≠ key) (obj_keys o).
Proof.
  unfold obj_keys. induction o as [|[k v] o IH]; csimpl; [done|].
  destruct (decide (k = key)) as [->|Hne].
  - by rewrite filter_cons_False by (intros Hk; by apply Hk).
  - rewrite filter_cons_True by done. csimpl. by rewrite IH.
Qed.

(** ** Assignment *)

Lemma obj_assign_plain o key v :
  key ≠ "__proto__" → obj_assign o key v = obj_set o key v.
Proof.
  intros Hne. unfold obj_assign. by rewrite (bool_decide_eq_false_2 _ Hne).
Qed.

Lemma obj_assign_proto o v :
  "__proto__" ∉ obj_keys o → obj_assign o "__proto__" v = o.
Proof.
  intros Hnotin. unfold obj_assign, hasOwnProperty.
  by rewrite (bool_decide_eq_false_2 _ Hnotin).
Qed.

Lemma elem_of_obj_keys_assign o key v key' :
  key' ∈ obj_keys (obj_assign o key v) → key' = key ∨ key' ∈ obj_keys o.
Proof.
  unfold obj_assign. destruct (_ && _); [by right|].
  by rewrite elem_of_obj_keys_set.
Qed.

(** ** The copy loop of [sort] *)

Lemma copy_keys_cons sorted k keys copy :
  copy_keys sorted (k :: keys) copy =
  copy_keys sorted keys
    (match obj_get sorted k with Some v => obj_assign copy k v | None => copy end).
Proof. done. Qed.

Lemma obj_get_copy_keys sorted keys copy key :
  "__proto__" ∉ keys →
  obj_get (copy_keys sorted keys copy) key =
  if decide (key ∈ keys ∧ is_Some (obj_get sorted key))
  then obj_get sorted key else obj_get copy key.
Proof.
  revert copy. induction keys as [|k keys IH]; intros copy Hplain.
  - change (copy_keys sorted [] copy) with copy.
    case_decide as H; [|done]. destruct H as [H _]. by apply elem_of_nil in H.
  - apply not_elem_of_cons in Hplain as [Hk Hplain].
    rewrite copy_keys_cons, IH by done.
    destruct (decide (key ∈ keys ∧ _)) as [[Hin Hs]|Hno].
    + rewrite decide_True; [done | split; [by right | done]].
    + destruct (decide (key ∈ k :: keys ∧ _)) as [[Hin Hs]|Hno'].
      * apply elem_of_cons in Hin as [->|Hin]; [|by destruct Hno].
        destruct Hs as [v Hv]. rewrite Hv, obj_assign_plain, obj_get_set by done.
        by rewrite decide_True.
      * destruct (obj_get sorted k) as [v|] eqn:Hv; [|done].
        rewrite obj_assign_plain, obj_get_set by done.
        destruct (decide (k = key)) as [->|?]; [|done].
        destruct Hno'. split; [left | eauto].
Qed.

Lemma obj_keys_copy_keys sorted keys copy :
  "__proto__" ∉ keys →
  NoDup keys →
  (∀ k, k ∈ keys → k ∉ obj_keys copy) →
  (∀ k, k ∈ keys → k ∈ obj_keys sorted) →
  obj_keys (copy_keys sorted keys copy) ≡ₚ obj_keys copy ++ keys.
Proof.
  revert copy.
  induction keys as [|k keys IH]; intros copy Hplain Hnd Hfresh Hsub.
  - simpl. by rewrite app_nil_r.
  - rewrite copy_keys_cons. apply NoDup_cons in Hnd as [Hk Hnd].
    apply not_elem_of_cons in Hplain as [Hkp Hplain].
    destruct (obj_get_is_Some sorted k) as [v Hv]; [apply Hsub; left|].
    rewrite Hv, obj_assign_plain by done.
    assert (obj_keys (obj_set copy k v) ≡ₚ k :: obj_keys copy) as Hset.
    { apply obj_keys_set_new, Hfresh. left. }
    rewrite IH; [ | done | done | | ].
    + rewrite Hset. simpl. by rewrite Permutation_middle.
    + intros k' Hk'. rewrite Hset. apply not_elem_of_cons. split.
      * intros ->. done.
      * apply Hfresh. by right.
    + intros k' Hk'. apply Hsub. by right.
Qed.

Lemma copy_keys_ext s1 s2 keys copy :
  (∀ k, k ∈ keys → obj_get s1 k = obj_get s2 k) →
  copy_keys s1 keys copy = copy_keys s2 keys copy.
Proof.
  revert copy. induction keys as [|k keys IH]; intros copy Heq; [done|].
  rewrite !copy_keys_cons, (Heq k) by left.
  apply IH. intros k' Hk'. apply Heq. by right.
Qed.

(** The key [__proto__] leaves the copy as it is. *)
Lemma copy_keys_skip_proto sorted keys copy :
  "__proto__" ∉ obj_keys copy →
  copy_keys sorted keys copy
  = copy_keys sorted (filter (λ k, k ≠ "__proto__") keys) copy.
Proof.
  revert copy. induction keys as [|k keys IH]; intros copy Hcopy; [done|].
  rewrite copy_keys_cons. destruct (decide (k = "__proto__")) as [->|Hne].
  - rewrite filter_cons_False by (intros Hk; by apply Hk).
    rewrite <-IH by done. f_equal.
    destruct (obj_get sorted "__proto__"); [by apply obj_assign_proto | done].
  - rewrite filter_cons_True, copy_keys_cons by done. apply IH.
    destruct (obj_get sorted k) as [v|]; [|done].
    intros [?|?]%elem_of_obj_keys_assign; done.
Qed.

(** ** [keys.sort()] *)

Lemma js_sort_perm keys : js_sort keys ≡ₚ keys.
Proof. apply merge_sort_Permutation. Qed.

Lemma js_sort_sorted keys : StronglySorted String.le (js_sort keys).
Proof. apply StronglySorted_merge_sort; apply _. Qed.

Lemma js_sort_order_insensitive keys1 keys2 :
  keys1 ≡ₚ keys2 → js_sort keys1 = js_sort keys2.
Proof.
  intros Hperm. apply (StronglySorted_unique String.le).
  - apply js_sort_sorted.
  - apply js_sort_sorted.
  - by rewrite !js_sort_perm.
Qed.

Lemma StronglySorted_filter (P : string → Prop) `{!∀ k, Decision (P k)} keys :
  StronglySorted String.le keys → StronglySorted String.le (filter P keys).
Proof.
  induction 1 as [|k keys Hsorted IH Hall]; [constructor|].
  destruct (decide (P k)).
  - rewrite filter_cons_True by done. constructor; [done|].
    rewrite Forall_forall in Hall |- *.
    intros k' [_ Hk']%list_elem_of_filter. auto.
  - by rewrite filter_cons_False.
Qed.

Lemma js_sort_filter (P : string → Prop) `{!∀ k, Decision (P k)} keys :
  filter P (js_sort keys) = js_sort (filter P keys).
Proof.
  apply (StronglySorted_unique String.le).
  - apply StronglySorted_filter, js_sort_sorted.
  - apply js_sort_sorted.
  - by rewrite !js_sort_perm.
Qed.


Lemma obj_get_sorted_copy s key :
  "__proto__" ∉ obj_keys s → obj_get (sorted_copy s) key = obj_get s key.
Proof.
  intros Hplain. unfold sorted_copy.
  rewrite obj_get_copy_keys by (by rewrite js_sort_perm).
  case_decide as Hno; [done|]. simpl.
  destruct (obj_get s key) as [v|] eqn:Hv; [|done].
  destruct Hno. split; [|eauto]. rewrite js_sort_perm.
  destruct (decide (key ∈ obj_keys s)) as [|Hn]; [done|].
  apply obj_get_None in Hn. congruence.
Qed.

Lemma obj_keys_sorted_copy s :
  "__proto__" ∉ obj_keys s →
  NoDup (obj_keys s) → obj_keys (sorted_copy s) ≡ₚ obj_keys s.
Proof.
  intros Hplain Hnd. unfold sorted_copy. rewrite obj_keys_copy_keys.
  - simpl. apply js_sort_perm.
  - by rewrite js_sort_perm.
  - by rewrite js_sort_perm.
  - intros k _. apply not_elem_of_nil.
  - intros k. by rewrite js_sort_perm.
Qed.

(** The copy of a mapping is the copy of the mapping without its own
    key [__proto__]. *)
Lemma sorted_copy_strip s :
  sorted_copy s = sorted_copy (obj_delete s "__proto__").
Proof.
  unfold sorted_copy.
  rewrite copy_keys_skip_proto by apply not_elem_of_nil.
  rewrite js_sort_filter, obj_keys_delete.
  apply copy_keys_ext. intros k Hk. rewrite obj_get_delete.
  rewrite decide_False; [done|]. intros <-.
  rewrite js_sort_perm in Hk. by apply list_elem_of_filter in Hk as [Hne _].
Qed.

(** ** Well-formed values *)

Lemma wf_obj o :
  wf (VObj o) = true ↔ NoDup (obj_keys o) ∧ Forall (λ e, wf e.2 = true) o.
Proof.
  simpl. rewrite andb_true_iff, bool_decide_eq_true, forallb_forall, Forall_forall.
  split; intros [? H]; (split; [done|]); intros x Hx; apply H.
  - by apply list_elem_of_In.
  - by apply list_elem_of_In.
Qed.

Lemma wf_arr l : wf (VArr l) = true ↔ Forall (λ x, wf x = true) l.
Proof.
  simpl. rewrite forallb_forall, Forall_forall.
  split; intros H x Hx; apply H; by apply list_elem_of_In.
Qed.




(** ** The state after [load] and [dump] *)

Section LoadDump.
Context (cipher : Cipher).
Context (JSON_parse : string → option value).
Context (JSON_stringify : value → string).
Context {Ans : Type}.

Abbreviation load_direct := (load cipher JSON_parse (λ r st, (r, st))).

(** [load] calls its callback once, as the last thing it does. *)
Lemma load_cps (callback : error + nat → state → Ans) st :
  load cipher JSON_parse callback st =
  callback (load_direct st).1 (load_direct st).2.
Proof.
  unfold load. destruct (cached st); [done|].
  destruct (readFile _); [done|].
  destruct (decrypt _ _); [done|].
  destruct (JSON_parse _); done.
Qed.

Lemma load_cached (callback : error + nat → state → Ans) st config :
  cached st = Some config →
  load cipher JSON_parse callback st = callback (inr config) st.
Proof. unfold load. by intros ->. Qed.

Lemma readFile_log ev st : readFile (log ev st) = readFile st.
Proof. done. Qed.

(** [load] writes nothing and leaves the objects it found alone. *)
Lemma load_preserves st res st' :
  load_direct st = (res, st') →
  file st' = file st ∧ writes st' = writes st ∧ heap st `prefix_of` heap st'
  ∧ _cache st' = _cache st ∧ write_fault st' = write_fault st
  ∧ _source st' = _source st.
Proof.
  unfold load, writes. destruct (cached st).
  { intros [= <- <-]. done. }
  rewrite readFile_log. destruct (readFile st) as [e|content].
  { intros [= <- <-]. simpl. rewrite filter_app. simpl.
    rewrite app_nil_r. split_and!; try done. by apply prefix_app_r. }
  simpl. destruct (decrypt cipher content) as [e|plaintext].
  { intros [= <- <-]. simpl. rewrite !filter_app. simpl.
    by rewrite !app_nil_r. }
  destruct (JSON_parse plaintext) as [config|].
  - intros [= <- <-]. simpl. rewrite !filter_app. simpl.
    rewrite !app_nil_r. split_and!; try done. by apply prefix_app_r.
  - intros [= <- <-]. simpl. rewrite !filter_app. simpl.
    by rewrite !app_nil_r.
Qed.
End LoadDump.

Lemma deref_obj st r d : deref st r = VObj d → heap st !! r = Some (VObj d).
Proof. unfold deref. destruct (heap st !! r); simpl; [by intros -> | done]. Qed.

Lemma deref_assign_any st config key x d :
  deref st config = VObj d →
  deref (assign config key x st) config = VObj (obj_assign d key x).
Proof.
  intros Hd. pose proof (deref_obj _ _ _ Hd) as Hl.
  unfold deref, assign. simpl. rewrite list_lookup_insert_eq.
  - unfold deref. by rewrite Hl.
  - by apply lookup_lt_Some in Hl.
Qed.

Lemma deref_assign st config key x d :
  deref st config = VObj d →
  key ≠ "__proto__" →
  deref (assign config key x st) config = VObj (obj_set d key x).
Proof.
  intros Hd Hplain. rewrite (deref_assign_any _ _ _ _ _ Hd).
  by rewrite obj_assign_plain.
Qed.

Lemma deref_alloc st v : deref (alloc v st).2 (alloc v st).1 = v.
Proof.
  unfold deref, alloc. simpl. rewrite lookup_app_r by lia.
  by rewrite Nat.sub_diag.
Qed.

Section Load.
Context (cipher : Cipher).
Context (JSON_parse : string → option value).
Context {Ans : Type}.

Lemma load_read_error st e (callback : error + nat → state → Ans) :
  cached st = None →
  readFile st = inl e →
  load cipher JSON_parse callback st =
  callback (inr (length (heap st)))
           (set_heap (heap st ++ [empty_document]) (log ReadFile st)).
Proof.
  intros Hmiss Hread. unfold load. by rewrite Hmiss, readFile_log, Hread.
Qed.

(** C3. When [load] reads the file and the content cannot be decrypted,
    or decrypts to a plaintext that does not parse, the callback receives
    the one error [StoreUnreadable]; the call and the state it is made
    in are the same for the two causes. *)
Theorem load_unreadable st content (callback : error + nat → state → Ans) :
  cached st = None →
  readFile st = inr content →
  (∃ e, decrypt cipher content = inl e)
  ∨ (∃ plaintext, decrypt cipher content = inr plaintext
                  ∧ JSON_parse plaintext = None) →
  load cipher JSON_parse callback st =
  callback (inl StoreUnreadable) (log (Decrypt content) (log ReadFile st)).
Proof.
  intros Hmiss Hread Hcause. unfold load.
  rewrite Hmiss, readFile_log, Hread. simpl.
  destruct Hcause as [[e ->]|(plaintext & -> & ->)]; done.
Qed.

(** C4. When the read of the file reports an error, [load] calls back
    without error and with a fresh object
    [{global: {}, services: {}, sources: {}}]. *)
Theorem load_absent_file st e (callback : error + nat → state → Ans) :
  cached st = None →
  readFile st = inl e →
  let config := length (heap st) in
  let st' := set_heap (heap st ++ [empty_document]) (log ReadFile st) in
  load cipher JSON_parse callback st = callback (inr config) st'
  ∧ deref st' config = empty_document
  ∧ heap st !! config = None.
Proof.
  intros Hmiss Hread. simpl. split_and!.
  - by apply load_read_error with e.
  - apply (deref_alloc (log ReadFile st) empty_document).
  - by apply lookup_ge_None.
Qed.




End Load.

Lemma prop_set_prop d key x key' :
  prop (VObj (obj_set d key x)) key' =
  if decide (key = key') then Some x else obj_get d key'.
Proof. apply obj_get_set. Qed.




Lemma mapping_or_absent_or_empty v :
  is_mapping_or_absent v = true →
  (v = None ∧ or_empty v = VObj []) ∨ (∃ o, v = Some (VObj o) ∧ or_empty v = VObj o).
Proof. destruct v as [[]|]; try done; eauto. Qed.


(** ** Reads through the prototype *)

Lemma get_own v key x : prop v key = Some x → get v key = Some (Own x).
Proof. unfold get. by intros ->. Qed.

Lemma get_plain v key :
  key ∉ Object_prototype → get v key = Own <$> prop v key.
Proof.
  intros Hplain. unfold get. destruct (prop v key); [done|].
  by rewrite (bool_decide_eq_false_2 _ Hplain).
Qed.


Lemma truthy_member_plain v key :
  key ∉ Object_prototype → truthy_member (get v key) = truthy (prop v key).
Proof. intros Hplain. rewrite get_plain by done. by destruct (prop v key). Qed.

(** What a read finds has the enumerable properties of the own
    property, if any. *)
Lemma member_or_empty_get v key :
  member_or_empty (get v key) = or_empty (prop v key).
Proof. unfold get. destruct (prop v key); [done|]. by case_bool_decide. Qed.

Section Operations.
Context (cipher : Cipher).
Context (JSON_parse : string → option value).
Context (JSON_stringify : value → string).
Context {Ans : Type} (TypeError : state → Ans).

Abbreviation loaded := (load cipher JSON_parse (λ r s, (r, s))).
Abbreviation Dump := (dump cipher JSON_stringify).



Lemma local_not_metadata : is_metadata LOCAL = false.
Proof. done. Qed.

(** C7.  The names [listSources] reports are the keys of [sources] that
    are not metadata, followed by the local name, which so occurs once
    when [sources] has no key of that name.  The current source is the
    chosen name, that is the override if set and [sources.__current__]
    otherwise, when it is a key of [sources] with a truthy value, and
    the local name when it is not; this for a chosen name that no member
    of [Object.prototype] bears. *)
Theorem listSources_spec st config st1 d
    (callback : error + list string * value → state → Ans) :
  loaded st = (inr config, st1) →
  deref st1 config = VObj d →
  is_mapping_or_absent (obj_get d "sources") = true →
  let sources := or_empty (obj_get d "sources") in
  let chosen := candidate_source (_source st) sources in
  ∃ names current,
    listSources cipher JSON_parse TypeError callback st
    = callback (inr (names ++ [LOCAL], current)) st1
    ∧ names = filter (λ s, is_metadata s = false) (obj_keys (props sources))
    ∧ (∀ s, s ∈ names ++ [LOCAL] → is_metadata s = false)
    ∧ (LOCAL ∉ obj_keys (props sources) → LOCAL ∉ names)
    ∧ (plain_name chosen = true →
       (resolves sources chosen = true → chosen = Some current)
       ∧ (resolves sources chosen = false → current = VStr LOCAL)).
Proof.
  intros Hload Hd Hok sources chosen.
  destruct (load_preserves _ _ _ _ _ Hload) as (_ & _ & _ & _ & _ & Hsource).
  eexists _, _. unfold listSources. rewrite load_cps, Hload. simpl.
  rewrite Hd. change (prop (VObj d)) with (obj_get d). fold sources.
  split; [reflexivity|]. split; [done|]. rewrite Hsource. split_and!.
  - intros s [Hs| ->%list_elem_of_singleton]%elem_of_app.
    + by apply list_elem_of_filter in Hs as [? _].
    + apply local_not_metadata.
  - intros Hlocal [_ ?]%list_elem_of_filter. done.
  - unfold current_source, resolves. fold chosen.
    destruct chosen as [c|]; [|done]. intros Hplain.
    destruct c as [| | |s| |]; try done. apply bool_decide_eq_true in Hplain.
    change (to_key (VStr s)) with s. rewrite truthy_member_plain by done.
    rewrite <-negb_andb. split; by intros ->.
Qed.

(** What [dump] does with the outcome of the write: the error of
    [fs.writeFile], if any, is handed to the callback as it is, after
    one encryption and one write. *)
Lemma dump_reports_write st config (callback : option error → state → Ans) :
  let json := JSON_stringify (sort (deref st config)) in
  let ciphertext := match encrypt cipher json with
                    | inr c => Some c
                    | inl _ => None
                    end in
  let st' := log (WriteFile ciphertext) (log (Encrypt json) st) in
  Dump config callback st =
  match write_fault st with
  | Some e => callback (Some e) st'
  | None => callback None (set_file (default "undefined" ciphertext) st')
  end.
Proof. done. Qed.
End Operations.

(** ** Canonical form *)



(** ** Examples on a concrete store *)

Lemma load_unreadable_witness :
  load demo_cipher demo_parse Called (new_store (Some "garbage") true)
  = Called (inl StoreUnreadable)
           (log (Decrypt "garbage") (log ReadFile (new_store (Some "garbage") true)))
  ∧ load demo_cipher demo_parse Called (new_store (Some "!{{") true)
    = Called (inl StoreUnreadable)
             (log (Decrypt "!{{") (log ReadFile (new_store (Some "!{{") true))).
Proof.
  split.
  - apply (load_unreadable demo_cipher demo_parse); [reflexivity | reflexivity |].
    left. by eexists.
  - apply (load_unreadable demo_cipher demo_parse); [reflexivity | reflexivity |].
    right. by eexists.
Defined.

Lemma load_absent_file_witness :
  load demo_cipher demo_parse Called (new_store None true)
  = Called (inr 0) (set_heap [empty_document] (log ReadFile (new_store None true)))
  ∧ _configCache (set_heap [empty_document] (log ReadFile (new_store None true)))
    = None.
Proof.
  split; [|reflexivity].
  apply (load_absent_file demo_cipher demo_parse (new_store None true) ENOENT Called);
    reflexivity.
Defined.





Lemma listSources_spec_witness :
  ∃ current,
    listSources demo_cipher demo_parse Threw Called demo_store
    = Called (inr (["work"; LOCAL], current)) demo_store
    ∧ current = VStr "work"
    ∧ LOCAL ∉ filter (λ s, is_metadata s = false) (obj_keys (props demo_sources)).
Proof.
  destruct (listSources_spec demo_cipher demo_parse Threw
              demo_store 0 demo_store _ Called eq_refl eq_refl eq_refl)
    as (names & current & Hrun & Hnames & _ & Honce & Hcurrent).
  destruct (Hcurrent eq_refl) as [Hresolves _].
  exists current. subst names. split_and!.
  - exact Hrun.
  - specialize (Hresolves eq_refl). by injection Hresolves.
  - apply Honce. apply (bool_decide_eq_false_1 _). reflexivity.
Defined.

(** [listSources] with the override set to a name that is not configured
    while [sources.__current__] names a configured source: the current
    source is the local one, neither the override nor [__current__].
    [listSources] on a document with a source named like the local one:
    the local name is listed twice.  And [listSources] with the override
    set to the name of a member of [Object.prototype], which is not a
    configured source either: that name is the current source. *)
Lemma listSources_current_counterexample :
  listSources demo_cipher demo_parse Threw Called (setSource "backup" demo_store)
  = Called (inr (["work"; LOCAL], VStr LOCAL)) (setSource "backup" demo_store)
  ∧ prop demo_sources "__current__" = Some (VStr "work")
  ∧ resolves demo_sources (Some (VStr "work")) = true
  ∧ spec_current (Some "backup") demo_sources = VStr "backup"
  ∧ VStr LOCAL ≠ spec_current (Some "backup") demo_sources
  ∧ VStr LOCAL ≠ VStr "work"
  ∧ listSources demo_cipher demo_parse Threw Called local_named_store
    = Called (inr ([LOCAL; LOCAL], VStr LOCAL)) local_named_store
  ∧ listSources demo_cipher demo_parse Threw Called
                (setSource "constructor" demo_store)
    = Called (inr (["work"; LOCAL], VStr "constructor"))
             (setSource "constructor" demo_store)
  ∧ resolves demo_sources (Some (VStr "constructor")) = false.
Proof. split_and!; try reflexivity; discriminate. Qed.

(** C1. [saveService] under the service name [__proto__], with nothing
    stored under it: the assignment [config.services[service] = updated]
    of line 106 adds no key to [services], so what is dumped, and
    reported as saved, is the document as it was; under another name
    the settings are stored. *)
Theorem saveService_proto_not_saved :
  stored_settings demo_document "__proto__" = None
  ∧ saveService demo_cipher demo_parse demo_stringify Threw "__proto__"
                demo_settings Called demo_store
    = dump demo_cipher demo_stringify 0 Called demo_store
  ∧ dump demo_cipher demo_stringify 0 Called demo_store
    = Called None
        (set_file "!demo"
           (log (WriteFile (Some "!demo")) (log (Encrypt "demo") demo_store)))
  ∧ obj_keys (props (or_empty (prop (deref (final
      (saveService demo_cipher demo_parse demo_stringify Threw "__proto__"
                   demo_settings Called demo_store)) 0) "services")))
    = ["github"]
  ∧ stored_settings (deref (final
      (saveService demo_cipher demo_parse demo_stringify Threw "gitlab"
                   demo_settings Called demo_store)) 0) "gitlab"
    = Some demo_settings.
Proof. split_and!; reflexivity. Qed.


(** C5. [deleteService] under the name of a member of [Object.prototype],
    with nothing stored under it: [config.services[service]] (line 124)
    finds the inherited member, so no [ServiceNotConfigured] is reported;
    the document is encrypted and written again and the callback is told
    of success.  Under a name that no inherited member bears the error
    is reported and nothing is written. *)
Theorem deleteService_inherited_name :
  stored_settings demo_document "constructor" = None
  ∧ deleteService demo_cipher demo_parse demo_stringify Threw "constructor"
                  Called demo_store
    = Called None
        (set_file "!demo"
           (log (WriteFile (Some "!demo")) (log (Encrypt "demo") demo_store)))
  ∧ deleteService demo_cipher demo_parse demo_stringify Threw "missing"
                  Called demo_store
    = Called (Some (ServiceNotConfigured "missing")) demo_store.
Proof. split_and!; reflexivity. Qed.

(** C6. [serviceSettings] without the globals, under the name of a
    member of [Object.prototype] with nothing stored under it:
    [config.services[service]] (line 136) finds the inherited member, so
    the answer is not [null] but a mapping, here the global settings.
    Under a name that no inherited member bears the answer is [null]. *)
Theorem serviceSettings_inherited_name :
  stored_settings demo_document "constructor" = None
  ∧ serviceSettings demo_cipher demo_parse Threw "constructor" false Called
                    demo_store
    = Called (inr (Some [("user", VStr "alice"); ("length", VNum 12)]))
             demo_store
  ∧ serviceSettings demo_cipher demo_parse Threw "missing" false Called
                    demo_store
    = Called (inr None) demo_store.
Proof. split_and!; reflexivity. Qed.

(** C9. An encryption that fails is not reported: [dump] goes on to
    write the [undefined] ciphertext over the file and calls back with the
    outcome of the write, here without error. *)
Theorem dump_drops_encryption_error :
  encrypt failing_cipher (demo_stringify (sort (deref demo_store 0)))
  = inl (Error "encryption failed")
  ∧ dump failing_cipher demo_stringify 0 Called demo_store
    = Called None
        (set_file "undefined"
           (log (WriteFile None) (log (Encrypt "demo") demo_store))).
Proof. split; reflexivity. Qed.

(** ** More on the canonical form *)

Lemma obj_get_elem_NoDup o key v :
  NoDup (obj_keys o) → (key, v) ∈ o → obj_get o key = Some v.
Proof.
  unfold obj_keys. induction o as [|[k w] o IH]; csimpl; intros Hnd Hin.
  - by apply elem_of_nil in Hin.
  - apply NoDup_cons in Hnd as [Hk Hnd].
    apply elem_of_cons in Hin as [[= -> ->]|Hin].
    + by rewrite decide_True.
    + destruct (decide (k = key)) as [->|?]; [|by apply IH].
      destruct Hk. apply list_elem_of_fmap. by exists (key, v).
Qed.

Lemma same_content_arr l1 l2 :
  same_content (VArr l1) (VArr l2) = true
  ↔ Forall2 (λ x y, same_content x y = true) l1 l2.
Proof.
  revert l2. induction l1 as [|x l1 IH]; intros [|y l2]; simpl.
  - split; [constructor | done].
  - split; [done | inv 1].
  - split; [done | inv 1].
  - rewrite andb_true_iff. split.
    + intros [Hxy Hrest]. constructor; [done|]. by apply IH.
    + inv 1. split; [done|]. by apply IH.
Qed.

Lemma same_content_obj o1 o2 :
  same_content (VObj o1) (VObj o2) = true
  ↔ length o1 = length o2
    ∧ ∀ k v, (k, v) ∈ o1 →
        ∃ w, obj_get o2 k = Some w ∧ same_content v w = true.
Proof.
  simpl. rewrite andb_true_iff, bool_decide_eq_true, forallb_forall.
  split; intros [Hlen Hall]; (split; [done|]).
  - intros k v Hin. apply list_elem_of_In, Hall in Hin. simpl in Hin.
    destruct (obj_get o2 k) as [w|]; [eauto | done].
  - intros [k v] Hin. apply list_elem_of_In, Hall in Hin as (w & Hw & Hvw).
    simpl. by rewrite Hw.
Qed.

Lemma sorted_copy_elem s key v :
  "__proto__" ∉ obj_keys s →
  NoDup (obj_keys s) → (key, v) ∈ sorted_copy s → (key, v) ∈ s.
Proof.
  intros Hplain Hnd Hin. apply obj_get_Some_elem.
  rewrite <-obj_get_sorted_copy by done. apply obj_get_elem_NoDup; [|done].
  by rewrite obj_keys_sorted_copy.
Qed.

Lemma sorted_copy_length s :
  "__proto__" ∉ obj_keys s →
  NoDup (obj_keys s) → length (sorted_copy s) = length s.
Proof.
  intros Hplain Hnd.
  apply obj_keys_sorted_copy, Permutation_length in Hnd; [|done].
  unfold obj_keys in Hnd. by rewrite !length_fmap in Hnd.
Qed.

Lemma elem_of_map_values (f : value → value) (o : obj) (key : string) v' :
  (key, v') ∈ map (λ e, (e.1, f e.2)) o → ∃ v, (key, v) ∈ o ∧ v' = f v.
Proof.
  intros Hin. apply list_elem_of_fmap in Hin as ([k v] & [= -> ->] & Hin).
  eauto.
Qed.

Lemma elem_of_obj_delete o key k v :
  (k, v) ∈ obj_delete o key → (k, v) ∈ o.
Proof.
  induction o as [|[k' w] o IH]; simpl; [done|].
  destruct (decide (k' = key)).
  - intros Hin. right. auto.
  - intros [->|Hin]%elem_of_cons; [left | right; auto].
Qed.

Lemma proto_free_obj o :
  proto_free (VObj o) = true
  ↔ ("__proto__" ∉ obj_keys o) ∧ Forall (λ e, proto_free e.2 = true) o.
Proof.
  simpl. rewrite andb_true_iff, bool_decide_eq_true, forallb_forall, Forall_forall.
  split; intros [? H]; (split; [done|]); intros x Hx; apply H.
  - by apply list_elem_of_In.
  - by apply list_elem_of_In.
Qed.

Lemma proto_free_arr l :
  proto_free (VArr l) = true ↔ Forall (λ x, proto_free x = true) l.
Proof.
  simpl. rewrite forallb_forall, Forall_forall.
  split; intros H x Hx; apply H; by apply list_elem_of_In.
Qed.

(** The properties of the copy are properties of the mapping that was
    copied, under a key other than [__proto__]. *)
Lemma sorted_copy_from s key v :
  NoDup (obj_keys s) →
  (key, v) ∈ sorted_copy s → key ≠ "__proto__" ∧ (key, v) ∈ s.
Proof.
  intros Hnd. rewrite sorted_copy_strip. intros Hin.
  assert ("__proto__" ∉ obj_keys (obj_delete s "__proto__")) as Hplain.
  { rewrite elem_of_obj_keys_delete. by intros [? _]. }
  apply sorted_copy_elem in Hin; [|done|].
  - split; [|by eapply elem_of_obj_delete]. intros ->.
    apply Hplain, list_elem_of_fmap. by exists ("__proto__", v).
  - rewrite obj_keys_delete. by apply NoDup_filter.
Qed.

Lemma sorted_copy_NoDup s :
  NoDup (obj_keys s) → NoDup (obj_keys (sorted_copy s)).
Proof.
  intros Hnd. rewrite sorted_copy_strip, obj_keys_sorted_copy.
  - rewrite obj_keys_delete. by apply NoDup_filter.
  - rewrite elem_of_obj_keys_delete. by intros [? _].
  - rewrite obj_keys_delete. by apply NoDup_filter.
Qed.

(** X1. Canonicalising keeps the keys of every mapping unique, and never
    gives a mapping an own key [__proto__]; it loses nothing of a value
    none of whose mappings has such a key: the output of [sort] then has
    the same content as its input. *)
Theorem sort_keeps_content d :
  wf d = true →
  wf (sort d) = true
  ∧ proto_free (sort d) = true
  ∧ (proto_free d = true → same_content d (sort d) = true).
Proof.
  induction d as [| | | |l IH|o IH] using value_ind; intros Hwf;
    try (split_and!; [done | done | intros _; simpl; by apply bool_decide_eq_true]);
    try done.
  - apply wf_arr in Hwf. rewrite Forall_forall in IH, Hwf. split_and!.
    + apply wf_arr. apply Forall_fmap, Forall_forall. intros x Hx.
      by apply IH; [|apply Hwf].
    + apply proto_free_arr. apply Forall_fmap, Forall_forall. intros x Hx.
      by apply IH; [|apply Hwf].
    + intros Hfree. apply proto_free_arr in Hfree.
      rewrite Forall_forall in Hfree.
      change (sort (VArr l)) with (VArr (map sort l)).
      apply same_content_arr. apply Forall2_fmap_r, Forall_Forall2_diag.
      apply Forall_forall. intros x Hx.
      by apply IH; [|apply Hwf|apply Hfree].
  - apply wf_obj in Hwf as [Hnd Hwf].
    change (sort (VObj o))
      with (VObj (sorted_copy (map (λ e, (e.1, sort e.2)) o))).
    set (m := map (λ e, (e.1, sort e.2)) o).
    assert (NoDup (obj_keys m)) as Hndm by (unfold m; by rewrite obj_keys_map).
    rewrite Forall_forall in IH, Hwf. split_and!.
    + apply wf_obj. split; [by apply sorted_copy_NoDup|].
      apply Forall_forall. intros [k v'] Hin. simpl.
      apply sorted_copy_from in Hin as [_ Hin]; [|done].
      apply elem_of_map_values in Hin as (v & Hin & ->).
      by apply (IH _ Hin); [apply (Hwf _ Hin)].
    + apply proto_free_obj. split.
      * intros Hin. apply list_elem_of_fmap in Hin as ([k v] & Hk & Hin).
        simpl in Hk. subst k. by apply sorted_copy_from in Hin as [? _].
      * apply Forall_forall. intros [k v'] Hin. simpl.
        apply sorted_copy_from in Hin as [_ Hin]; [|done].
        apply elem_of_map_values in Hin as (v & Hin & ->).
        by apply (IH _ Hin); [apply (Hwf _ Hin)].
    + intros Hfree. apply proto_free_obj in Hfree as [Hplain Hfree].
      rewrite Forall_forall in Hfree.
      assert ("__proto__" ∉ obj_keys m) as Hplainm.
      { unfold m. by rewrite obj_keys_map. }
      apply same_content_obj. split.
      * rewrite sorted_copy_length by done. unfold m. by rewrite length_map.
      * intros k v Hin. exists (sort v). split.
        -- rewrite obj_get_sorted_copy by done. unfold m. rewrite obj_get_map.
           by rewrite (obj_get_elem_NoDup _ _ _ Hnd Hin).
        -- by apply (IH _ Hin); [apply (Hwf _ Hin) | apply (Hfree _ Hin)].
Qed.

Lemma sort_keeps_content_witness :
  wf demo_document = true
  ∧ wf (sort demo_document) = true
  ∧ proto_free (sort demo_document) = true
  ∧ same_content demo_document (sort demo_document) = true
  ∧ sort (VObj [("__proto__", VObj [("admin", VBool true)]); ("user", VNull)])
    = VObj [("user", VNull)].
Proof.
  split; [reflexivity|].
  destruct (sort_keeps_content demo_document eq_refl) as (Hwf & Hfree & Hsame).
  split_and!; [exact Hwf | exact Hfree | exact (Hsame eq_refl) | reflexivity].
Defined.

(** X2. Two documents with the same canonical form, none of whose
    mappings has an own key [__proto__], have the same content: [sort]
    identifies such documents only up to the order of their keys. *)
Theorem sort_injective a b :
  wf a = true → wf b = true →
  proto_free a = true → proto_free b = true →
  sort a = sort b → same_content a b = true.
Proof.
  revert b. induction a as [| | | |l1 IH|o1 IH] using value_ind;
    intros [| | | |l2|o2] Hwfa Hwfb Hfa Hfb Heq; try discriminate Heq;
    try (simpl in Heq; injection Heq as ->; simpl; by apply bool_decide_eq_true);
    try done.
  - apply wf_arr in Hwfa, Hwfb. apply proto_free_arr in Hfa, Hfb.
    apply same_content_arr.
    change (VArr (map sort l1) = VArr (map sort l2)) in Heq.
    injection Heq as Heq. revert l2 Hwfb Hfb Heq.
    induction IH as [|x l1 Hx _ IHl]; intros [|y l2] Hwfb Hfb Heq;
      try discriminate Heq; [constructor|].
    apply Forall_cons in Hwfa as [Hwx Hwl1], Hwfb as [Hwy Hwl2].
    apply Forall_cons in Hfa as [Hfx Hfl1], Hfb as [Hfy Hfl2].
    injection Heq as Hxy Hrest. constructor; auto.
  - apply wf_obj in Hwfa as [Hnd1 Hwf1]. apply wf_obj in Hwfb as [Hnd2 Hwf2].
    apply proto_free_obj in Hfa as [Hp1 Hf1], Hfb as [Hp2 Hf2].
    change (VObj (sorted_copy (map (λ e, (e.1, sort e.2)) o1))
            = VObj (sorted_copy (map (λ e, (e.1, sort e.2)) o2))) in Heq.
    injection Heq as Heq.
    assert (∀ k, sort <$> obj_get o1 k = sort <$> obj_get o2 k) as Hget.
    { intros k.
      transitivity (obj_get (sorted_copy (map (λ e, (e.1, sort e.2)) o1)) k).
      - by rewrite obj_get_sorted_copy, obj_get_map by (by rewrite obj_keys_map).
      - rewrite Heq.
        by rewrite obj_get_sorted_copy, obj_get_map by (by rewrite obj_keys_map). }
    apply same_content_obj. split.
    + transitivity (length (sorted_copy (map (λ e, (e.1, sort e.2)) o1))).
      * rewrite sorted_copy_length by (by rewrite obj_keys_map).
        by rewrite length_map.
      * rewrite Heq, sorted_copy_length by (by rewrite obj_keys_map).
        by rewrite length_map.
    + intros k v Hin. specialize (Hget k).
      rewrite (obj_get_elem_NoDup _ _ _ Hnd1 Hin) in Hget.
      destruct (obj_get o2 k) as [w|] eqn:Hw; [|done].
      injection Hget as Hvw. exists w. split; [done|].
      apply obj_get_Some_elem in Hw.
      rewrite Forall_forall in IH, Hwf1, Hwf2, Hf1, Hf2.
      apply (IH _ Hin); [apply (Hwf1 _ Hin) | apply (Hwf2 _ Hw)
                         | apply (Hf1 _ Hin) | apply (Hf2 _ Hw) | done].
Qed.

Lemma sort_injective_witness :
  sort demo_document = sort demo_document_permuted
  ∧ same_content demo_document demo_document_permuted = true.
Proof.
  split; [reflexivity|].
  apply (sort_injective demo_document demo_document_permuted); reflexivity.
Defined.

Lemma obj_keys_copy_keys_append sorted keys copy :
  "__proto__" ∉ keys →
  NoDup keys →
  (∀ k, k ∈ keys → k ∉ obj_keys copy) →
  (∀ k, k ∈ keys → k ∈ obj_keys sorted) →
  Forall (λ k, array_index k = None) keys →
  obj_keys (copy_keys sorted keys copy) = obj_keys copy ++ keys.
Proof.
  revert copy.
  induction keys as [|k keys IH]; intros copy Hplain Hnd Hfresh Hsub Hidx.
  - simpl. by rewrite app_nil_r.
  - rewrite copy_keys_cons. apply NoDup_cons in Hnd as [Hk Hnd].
    apply not_elem_of_cons in Hplain as [Hkp Hplain].
    apply Forall_cons in Hidx as [Hki Hidx].
    destruct (obj_get_is_Some sorted k) as [v Hv]; [apply Hsub; left|].
    rewrite Hv, obj_assign_plain by done.
    assert (obj_set copy k v = copy ++ [(k, v)]) as Hset.
    { unfold obj_set, hasOwnProperty.
      rewrite bool_decide_eq_false_2 by (apply Hfresh; left). by rewrite Hki. }
    rewrite Hset, IH; [| done | done | | | done].
    + unfold obj_keys. rewrite fmap_app. csimpl. by rewrite <-app_assoc.
    + intros k' Hk'. unfold obj_keys. rewrite fmap_app. csimpl.
      rewrite elem_of_app, list_elem_of_singleton. intros [Hin| ->]; [|done].
      by apply (Hfresh k'); [right|].
    + intros k' Hk'. apply Hsub. by right.
Qed.

(** X3. In the canonical form of a mapping none of whose keys is an
    array index, [Object.keys] lists the keys of the mapping other than
    [__proto__], in ascending order of code units. *)
Theorem sort_keys_ascending o :
  NoDup (obj_keys o) →
  Forall (λ k, array_index k = None) (obj_keys o) →
  obj_keys (props (sort (VObj o)))
  = js_sort (filter (λ k, k ≠ "__proto__") (obj_keys o))
  ∧ StronglySorted String.le (obj_keys (props (sort (VObj o)))).
Proof.
  intros Hnd Hidx.
  change (props (sort (VObj o)))
    with (sorted_copy (map (λ e, (e.1, sort e.2)) o)).
  assert (obj_keys (sorted_copy (map (λ e, (e.1, sort e.2)) o))
          = js_sort (filter (λ k, k ≠ "__proto__") (obj_keys o))) as ->.
  { rewrite sorted_copy_strip. unfold sorted_copy.
    rewrite obj_keys_delete, obj_keys_map.
    rewrite obj_keys_copy_keys_append; [done | | | | |].
    - rewrite js_sort_perm. by intros [? _]%list_elem_of_filter.
    - rewrite js_sort_perm. by apply NoDup_filter.
    - intros k _. apply not_elem_of_nil.
    - intros k. by rewrite obj_keys_delete, obj_keys_map, js_sort_perm.
    - rewrite js_sort_perm. rewrite Forall_forall in Hidx |- *.
      intros k [_ Hk]%list_elem_of_filter. auto. }
  split; [done | apply js_sort_sorted].
Qed.

Lemma sort_keys_ascending_witness :
  obj_keys (props (sort demo_document)) = ["global"; "services"; "sources"]
  ∧ obj_keys (props (sort (VObj [("user", VNull); ("__proto__", VNull);
                                 ("length", VNull)])))
    = ["length"; "user"].
Proof.
  split.
  - refine (proj1 (sort_keys_ascending _ _ _)).
    + apply (bool_decide_eq_true_1 _). reflexivity.
    + repeat constructor.
  - refine (proj1 (sort_keys_ascending _ _ _)).
    + apply (bool_decide_eq_true_1 _). reflexivity.
    + repeat constructor.
Defined.

(** ** The operations that only read *)

Lemma untouched_refl st : untouched st st.
Proof. by split_and!. Qed.

Lemma untouched_trans st1 st2 st3 :
  untouched st1 st2 → untouched st2 st3 → untouched st1 st3.
Proof.
  intros (Hf1 & Hw1 & Hh1) (Hf2 & Hw2 & Hh2). split_and!; [congruence.. |].
  by etrans.
Qed.

Lemma untouched_uncaught st : untouched st (log Uncaught st).
Proof.
  split_and!; [done | | done]. unfold writes. simpl.
  rewrite filter_app. simpl. by rewrite app_nil_r.
Qed.

Ltac ends_untouched :=
  repeat first
    [ apply untouched_refl | apply untouched_uncaught | case_match ].

Section ReadOnly.
Context (cipher : Cipher).
Context (JSON_parse : string → option value).
Context {R : Type} (RemoteStore : value → option member → option R).

Abbreviation loaded := (load cipher JSON_parse (λ r s, (r, s))).

Lemma load_untouched st : untouched st (loaded st).2.
Proof.
  destruct (loaded st) as [res st'] eqn:Hload.
  destruct (load_preserves _ _ _ _ _ Hload) as (? & ? & ? & _). by split_and!.
Qed.

Lemma load_then_untouched {A} (k : error + nat → state → outcome A) st :
  (∀ r s, untouched s (final (k r s))) →
  untouched st (final (load cipher JSON_parse k st)).
Proof.
  intros Hk. rewrite load_cps. eapply untouched_trans; [apply load_untouched|].
  apply Hk.
Qed.

(** X4. The operations that only read leave the file as it is, encrypt
    and write nothing, and change none of the objects in memory, whatever
    the file holds and however they end. *)
Theorem read_operations_write_nothing st service includeGlobal source :
  untouched st (final (load cipher JSON_parse Called st))
  ∧ untouched st (final (serviceSettings cipher JSON_parse Threw service
                                         includeGlobal Called st))
  ∧ untouched st (final (listSources cipher JSON_parse Threw Called st))
  ∧ untouched st (final (listServices cipher JSON_parse Threw Called st))
  ∧ untouched st (final (export cipher JSON_parse Threw Called st))
  ∧ untouched st (final (getStore cipher JSON_parse Threw RemoteStore source Called st))
  ∧ untouched st (final (currentStore cipher JSON_parse Threw RemoteStore Called st)).
Proof.
  assert (∀ src s, untouched s
            (final (getStore cipher JSON_parse Threw RemoteStore src Called s)))
    as Hget.
  { intros src s. unfold getStore. apply load_then_untouched.
    intros [e|config] s1; ends_untouched. }
  split_and!.
  - apply load_then_untouched. intros r s. apply untouched_refl.
  - unfold serviceSettings. apply load_then_untouched.
    intros [e|config] s; ends_untouched.
  - unfold listSources. apply load_then_untouched.
    intros [e|config] s; ends_untouched.
  - unfold listServices. apply load_then_untouched.
    intros [e|config] s; ends_untouched.
  - unfold export. apply load_then_untouched.
    intros [e|config] s; ends_untouched.
  - apply Hget.
  - unfold currentStore. apply load_then_untouched.
    intros [e|config] s; [apply untouched_refl|].
    destruct (override (_source s)); [apply Hget|].
    destruct (deref s config); first [apply untouched_uncaught | apply Hget].
Qed.
End ReadOnly.

(** ** The other operations *)

Section Rest.
Context (cipher : Cipher).
Context (JSON_parse : string → option value).
Context (JSON_stringify : value → string).
Context {Ans : Type} (TypeError : state → Ans).
Context {R : Type} (RemoteStore : value → option member → option R).

Abbreviation loaded := (load cipher JSON_parse (λ r s, (r, s))).
Abbreviation Dump := (dump cipher JSON_stringify).

(** X5. [listServices] answers the names of the saved services in
    ascending order of code units, whatever the order they were saved
    in. *)
Theorem listServices_sorted st config st1 d
    (callback : error + list string → state → Ans) :
  loaded st = (inr config, st1) →
  deref st1 config = VObj d →
  let services := props (or_empty (obj_get d "services")) in
  ∃ names,
    listServices cipher JSON_parse TypeError callback st
    = callback (inr names) st1
    ∧ StronglySorted String.le names
    ∧ names ≡ₚ obj_keys services
    ∧ ∀ services', obj_keys services' ≡ₚ obj_keys services →
        js_sort (obj_keys services') = names.
Proof.
  intros Hload Hd services. eexists. unfold listServices.
  rewrite load_cps, Hload. simpl. rewrite Hd.
  change (prop (VObj d)) with (obj_get d). fold services.
  split; [reflexivity|]. split_and!.
  - apply js_sort_sorted.
  - apply js_sort_perm.
  - intros services' Hperm. by apply js_sort_order_insensitive.
Qed.

(** X6. When [load] reports an error, every operation hands that error
    to its callback in the state [load] left, and does nothing else. *)
Theorem load_error_is_passed_on st e st1 service settings includeGlobal source
    (finished : option error → state → Ans)
    (got_settings : error + option obj → state → Ans)
    (got_sources : error + list string * value → state → Ans)
    (got_names : error + list string → state → Ans)
    (got_store : error + store R → state → Ans)
    (got_export : error + option value * option value → state → Ans) :
  loaded st = (inl e, st1) →
  clear cipher JSON_parse JSON_stringify TypeError finished st = finished (Some e) st1
  ∧ saveGlobals cipher JSON_parse JSON_stringify TypeError settings finished st
    = finished (Some e) st1
  ∧ saveService cipher JSON_parse JSON_stringify TypeError service settings
                finished st
    = finished (Some e) st1
  ∧ deleteGlobals cipher JSON_parse JSON_stringify TypeError finished st
    = finished (Some e) st1
  ∧ deleteService cipher JSON_parse JSON_stringify TypeError service finished st
    = finished (Some e) st1
  ∧ import cipher JSON_parse JSON_stringify TypeError settings finished st
    = finished (Some e) st1
  ∧ serviceSettings cipher JSON_parse TypeError service includeGlobal
                    got_settings st
    = got_settings (inl e) st1
  ∧ listSources cipher JSON_parse TypeError got_sources st
    = got_sources (inl e) st1
  ∧ listServices cipher JSON_parse TypeError got_names st
    = got_names (inl e) st1
  ∧ getStore cipher JSON_parse TypeError RemoteStore source got_store st
    = got_store (inl e) st1
  ∧ currentStore cipher JSON_parse TypeError RemoteStore got_store st
    = got_store (inl e) st1
  ∧ export cipher JSON_parse TypeError got_export st
    = got_export (inl e) st1.
Proof.
  intros Hload.
  unfold clear, saveGlobals, saveService, deleteGlobals, deleteService, import,
    serviceSettings, listSources, listServices, getStore, currentStore, export.
  split_and!; rewrite load_cps, Hload; reflexivity.
Qed.

(** X7. On a store whose file cannot be read every operation that reads
    sees the empty document: no services and only the local source; and,
    for a service name and an override that no member of
    [Object.prototype] bears, no settings, no service to delete, and the
    local source as the current one. *)
Theorem fresh_store st e service
    (finished : option error → state → Ans)
    (got_settings : error + option obj → state → Ans)
    (got_sources : error + list string * value → state → Ans)
    (got_names : error + list string → state → Ans)
    (got_store : error + store R → state → Ans)
    (got_export : error + option value * option value → state → Ans) :
  cached st = None →
  readFile st = inl e →
  let st1 := set_heap (heap st ++ [empty_document]) (log ReadFile st) in
  listServices cipher JSON_parse TypeError got_names st = got_names (inr []) st1
  ∧ ((∀ s, _source st = Some s → s ∉ Object_prototype) →
     listSources cipher JSON_parse TypeError got_sources st
     = got_sources (inr ([LOCAL], VStr LOCAL)) st1)
  ∧ (service ∉ Object_prototype →
     serviceSettings cipher JSON_parse TypeError service false got_settings st
     = got_settings (inr None) st1)
  ∧ serviceSettings cipher JSON_parse TypeError service true got_settings st
    = got_settings (inr (Some [])) st1
  ∧ export cipher JSON_parse TypeError got_export st
    = got_export (inr (Some (VObj []), Some (VObj []))) st1
  ∧ (service ∉ Object_prototype →
     deleteService cipher JSON_parse JSON_stringify TypeError service finished st
     = finished (Some (ServiceNotConfigured service)) st1)
  ∧ getStore cipher JSON_parse TypeError RemoteStore None got_store st
    = got_store (inr ThisStore) st1.
Proof.
  intros Hmiss Hread st1.
  assert (deref st1 (length (heap st)) = empty_document) as Hd.
  { apply (deref_alloc (log ReadFile st) empty_document). }
  subst st1. split_and!.
  - unfold listServices. by rewrite (load_read_error _ _ _ _ _ Hmiss Hread), Hd.
  - intros Hplain.
    unfold listSources. rewrite (load_read_error _ _ _ _ _ Hmiss Hread), Hd.
    unfold empty_document at 1. cbv beta iota. fold empty_document.
    change (or_empty (prop empty_document "sources")) with (VObj []).
    change (_source (set_heap (heap st ++ [empty_document]) (log ReadFile st)))
      with (_source st).
    unfold current_source, candidate_source.
    destruct (_source st) as [s|]; [|done].
    destruct (truthy (Some (VStr s))) eqn:Htruthy; [|done].
    change (to_key (VStr s)) with s.
    rewrite truthy_member_plain by (by apply Hplain).
    by rewrite ?Htruthy.
  - intros Hplain. unfold serviceSettings.
    rewrite (load_read_error _ _ _ _ _ Hmiss Hread), Hd.
    unfold empty_document at 1. cbv beta iota. fold empty_document.
    change (or_empty (prop empty_document "services")) with (VObj []).
    by rewrite truthy_member_plain.
  - unfold serviceSettings.
    rewrite (load_read_error _ _ _ _ _ Hmiss Hread), Hd.
    unfold empty_document at 1. cbv beta iota. fold empty_document.
    change (or_empty (prop empty_document "services")) with (VObj []).
    by rewrite member_or_empty_get.
  - unfold export. by rewrite (load_read_error _ _ _ _ _ Hmiss Hread), Hd.
  - intros Hplain. unfold deleteService.
    rewrite (load_read_error _ _ _ _ _ Hmiss Hread), Hd.
    unfold empty_document at 1. cbv beta iota. fold empty_document.
    change (prop empty_document "services") with (Some (VObj [])).
    cbv beta iota. by rewrite truthy_member_plain.
  - unfold getStore. by rewrite (load_read_error _ _ _ _ _ Hmiss Hread).
Qed.

(** X8. [clear] empties [global] and [services], leaves every other
    property of the document as it is, and dumps. *)
Theorem clear_spec st config st1 d (callback : option error → state → Ans) :
  loaded st = (inr config, st1) →
  deref st1 config = VObj d →
  ∃ st2,
    clear cipher JSON_parse JSON_stringify TypeError callback st
    = Dump config callback st2
    ∧ prop (deref st2 config) "global" = Some (VObj [])
    ∧ prop (deref st2 config) "services" = Some (VObj [])
    ∧ (∀ service, stored_settings (deref st2 config) service = None)
    ∧ (∀ key, key ≠ "global" → key ≠ "services" →
         prop (deref st2 config) key = obj_get d key)
    ∧ file st2 = file st1 ∧ trace st2 = trace st1.
Proof.
  intros Hload Hd. eexists. unfold clear. rewrite load_cps, Hload. simpl.
  rewrite Hd. split; [reflexivity|].
  rewrite (deref_assign _ _ _ _ (obj_set d "global" (VObj [])))
    by first [done | by apply deref_assign].
  unfold stored_settings. rewrite !prop_set_prop. split_and!; try done.
  - rewrite decide_False by done. by rewrite obj_get_set, decide_True.
  - intros key Hg Hs. rewrite prop_set_prop, decide_False by done.
    by rewrite obj_get_set, decide_False.
Qed.

(** X9. [deleteGlobals] empties [global], leaves every other property of
    the document as it is, and dumps. *)
Theorem deleteGlobals_spec st config st1 d
    (callback : option error → state → Ans) :
  loaded st = (inr config, st1) →
  deref st1 config = VObj d →
  ∃ st2,
    deleteGlobals cipher JSON_parse JSON_stringify TypeError callback st
    = Dump config callback st2
    ∧ prop (deref st2 config) "global" = Some (VObj [])
    ∧ (∀ key, key ≠ "global" → prop (deref st2 config) key = obj_get d key)
    ∧ (∀ service, stored_settings (deref st2 config) service
                  = stored_settings (VObj d) service)
    ∧ file st2 = file st1 ∧ trace st2 = trace st1.
Proof.
  intros Hload Hd. eexists. unfold deleteGlobals. rewrite load_cps, Hload.
  simpl. rewrite Hd. split; [reflexivity|].
  rewrite (deref_assign _ _ _ _ _ Hd) by done.
  unfold stored_settings. rewrite !prop_set_prop. split_and!; try done.
  intros key Hne. by rewrite prop_set_prop, decide_False.
Qed.

(** X20. [saveService] under a name other than [__proto__] replaces the
    entry of that service by one mapping, leaves every other service and
    every other property of the document as they are, and dumps; nothing
    is read or written between the load and the dump. *)
Theorem saveService_frame st config st1 d service settings
    (callback : option error → state → Ans) :
  loaded st = (inr config, st1) →
  deref st1 config = VObj d →
  is_mapping_or_absent (obj_get d "services") = true →
  service ≠ "__proto__" →
  ∃ updated st2,
    saveService cipher JSON_parse JSON_stringify TypeError service settings
                callback st
    = Dump config callback st2
    ∧ stored_settings (deref st2 config) service = Some (VObj updated)
    ∧ (∀ other, other ≠ service →
         stored_settings (deref st2 config) other
         = stored_settings (VObj d) other)
    ∧ (∀ key, key ≠ "services" → prop (deref st2 config) key = obj_get d key)
    ∧ file st2 = file st1 ∧ trace st2 = trace st1.
Proof.
  intros Hload Hd Hservices Hplain.
  unfold saveService. rewrite load_cps, Hload. cbn [fst snd].
  rewrite Hd. cbv beta iota.
  rewrite (deref_assign _ _ _ _ _ Hd), prop_set_prop, decide_True by done.
  change (prop (VObj d)) with (obj_get d).
  assert (∃ s, or_empty (obj_get d "services") = VObj s
               ∧ ∀ name, stored_settings (VObj d) name = obj_get s name)
    as (s & Hs & Hstored).
  { unfold stored_settings. change (prop (VObj d)) with (obj_get d).
    destruct (mapping_or_absent_or_empty _ Hservices)
      as [[-> ->]|(o & -> & ->)]; eauto. }
  rewrite Hs. cbv beta iota. unfold set_prop at 1.
  rewrite obj_assign_plain by done.
  eexists _, _. split; [reflexivity|].
  rewrite (deref_assign _ _ _ _ (obj_set d "services" (VObj s)))
    by first [done | by apply deref_assign].
  unfold stored_settings. rewrite prop_set_prop, decide_True by done.
  change (or_empty (Some (VObj ?o))) with (VObj o).
  split_and!; try done.
  - by rewrite prop_set_prop, decide_True.
  - intros other Hne. rewrite prop_set_prop, decide_False by done.
    change (prop (VObj d)) with (obj_get d). by rewrite Hs.
  - intros key Hne. rewrite prop_set_prop, decide_False by done.
    by rewrite obj_get_set, decide_False.
Qed.

(** X22. [saveService] under the name [__proto__], when [services] does
    not own that key: no service is added or changed, every other
    property of the document is as it was, and the document is dumped
    all the same. *)
Theorem saveService_proto st config st1 d settings
    (callback : option error → state → Ans) :
  loaded st = (inr config, st1) →
  deref st1 config = VObj d →
  is_mapping_or_absent (obj_get d "services") = true →
  stored_settings (VObj d) "__proto__" = None →
  ∃ st2,
    saveService cipher JSON_parse JSON_stringify TypeError "__proto__" settings
                callback st
    = Dump config callback st2
    ∧ (∀ service, stored_settings (deref st2 config) service
                  = stored_settings (VObj d) service)
    ∧ obj_keys (props (or_empty (prop (deref st2 config) "services")))
      = obj_keys (props (or_empty (obj_get d "services")))
    ∧ (∀ key, key ≠ "services" → prop (deref st2 config) key = obj_get d key)
    ∧ file st2 = file st1 ∧ trace st2 = trace st1.
Proof.
  intros Hload Hd Hservices Hnone.
  unfold saveService. rewrite load_cps, Hload. cbn [fst snd].
  rewrite Hd. cbv beta iota.
  rewrite (deref_assign _ _ _ _ _ Hd), prop_set_prop, decide_True by done.
  change (prop (VObj d)) with (obj_get d).
  unfold stored_settings in Hnone |- *.
  change (prop (VObj d)) with (obj_get d) in Hnone |- *.
  assert (∃ s, or_empty (obj_get d "services") = VObj s) as [s Hs].
  { destruct (mapping_or_absent_or_empty _ Hservices)
      as [[_ ->]|(o & _ & ->)]; eauto. }
  rewrite Hs in Hnone |- *. cbv beta iota. unfold set_prop at 1.
  rewrite obj_assign_proto by (by apply obj_get_None).
  eexists. split; [reflexivity|].
  rewrite (deref_assign _ _ _ _ (obj_set d "services" (VObj s)))
    by first [done | by apply deref_assign].
  rewrite !prop_set_prop, decide_True by done.
  split_and!; try done.
  intros key Hne. rewrite prop_set_prop, decide_False by done.
  by rewrite obj_get_set, decide_False.
Qed.

(** X21. [saveGlobals] replaces [global] by one mapping, leaves every
    other property of the document, and so the settings of every
    service, as they are, and dumps; nothing is read or written between
    the load and the dump. *)
Theorem saveGlobals_frame st config st1 d settings
    (callback : option error → state → Ans) :
  loaded st = (inr config, st1) →
  deref st1 config = VObj d →
  ∃ updated st2,
    saveGlobals cipher JSON_parse JSON_stringify TypeError settings callback st
    = Dump config callback st2
    ∧ prop (deref st2 config) "global" = Some (VObj updated)
    ∧ (∀ key, key ≠ "global" → prop (deref st2 config) key = obj_get d key)
    ∧ (∀ service, stored_settings (deref st2 config) service
                  = stored_settings (VObj d) service)
    ∧ file st2 = file st1 ∧ trace st2 = trace st1.
Proof.
  intros Hload Hd. eexists _, _.
  unfold saveGlobals. rewrite load_cps, Hload. cbn [fst snd].
  rewrite Hd. cbv beta iota. split; [reflexivity|].
  rewrite (deref_assign _ _ _ _ _ Hd) by done.
  unfold stored_settings. rewrite !prop_set_prop. split_and!; try done.
  intros key Hne. by rewrite prop_set_prop, decide_False.
Qed.

Lemma cached_Some st config :
  cached st = Some config →
  _cache st = true ∧ _configCache st = Some config
  ∧ truthy (heap st !! config) = true.
Proof.
  unfold cached. destruct (_cache st); [|done].
  destruct (_configCache st) as [c|]; [|done].
  destruct (truthy (heap st !! c)) eqn:Ht; [|done]. by intros [= <-].
Qed.

Lemma cached_kept st st' config d' :
  cached st = Some config →
  _cache st' = _cache st →
  _configCache st' = _configCache st →
  heap st' !! config = Some (VObj d') →
  cached st' = Some config ∧ deref st' config = VObj d'.
Proof.
  intros (Hon & Hcc & _)%cached_Some Hc' Hcc' Hobj. split.
  - unfold cached. by rewrite Hc', Hon, Hcc', Hcc, Hobj.
  - unfold deref. by rewrite Hobj.
Qed.

Lemma heap_assign st config key x d :
  deref st config = VObj d →
  key ≠ "__proto__" →
  heap (assign config key x st) !! config = Some (VObj (obj_set d key x)).
Proof.
  intros Hd Hplain. apply deref_obj. by apply deref_assign.
Qed.

(** X10. [getStore] answers the local store itself for a missing, empty
    or local source name without looking at the document; for any other
    name it answers a remote store made with what [sources[name]] finds,
    be it a configured source, a member inherited from
    [Object.prototype] or nothing, and throws when the document has no
    [sources]. *)
Theorem getStore_spec st config st1 source
    (callback : error + store R → state → Ans) :
  loaded st = (inr config, st1) →
  (names_local source = true →
     getStore cipher JSON_parse TypeError RemoteStore source callback st
     = callback (inr ThisStore) st1)
  ∧ (∀ name d, source = Some (VStr name) → names_local source = false →
       deref st1 config = VObj d →
       (∀ sources, obj_get d "sources" = Some (VObj sources) →
          getStore cipher JSON_parse TypeError RemoteStore source callback st
          = match RemoteStore (VStr name) (get (VObj sources) name) with
            | Some remote => callback (inr (Remote remote)) st1
            | None => TypeError (log Uncaught st1)
            end)
       ∧ (obj_get d "sources" = None →
            getStore cipher JSON_parse TypeError RemoteStore source callback st
            = TypeError (log Uncaught st1))).
Proof.
  intros Hload. split.
  - intros Hlocal. unfold getStore. rewrite load_cps, Hload. simpl.
    destruct source as [src|]; [|done]. unfold names_local in Hlocal. by rewrite Hlocal.
  - intros name d -> Hremote Hd. unfold names_local in Hremote.
    unfold getStore. rewrite load_cps, Hload. cbn [fst snd].
    rewrite Hremote, Hd. change (prop (VObj d)) with (obj_get d).
    split.
    + by intros sources ->.
    + by intros ->.
Qed.

(** X11. [currentStore] takes the override, or else
    [sources.__current__], without checking that it is configured: when
    that name is set and not the local one, the store it answers is a
    remote store made with what [sources[name]] finds, even if that is
    nothing, in which case [listSources] reports the local source as
    current. *)
Theorem currentStore_spec st config d sources
    (callback : error + store R → state → Ans) :
  cached st = Some config →
  deref st config = VObj d →
  obj_get d "sources" = Some (VObj sources) →
  let current := candidate_source (_source st) (VObj sources) in
  (names_local current = true →
     currentStore cipher JSON_parse TypeError RemoteStore callback st
     = callback (inr ThisStore) st)
  ∧ (∀ name, current = Some (VStr name) → names_local current = false →
       currentStore cipher JSON_parse TypeError RemoteStore callback st
       = match RemoteStore (VStr name) (get (VObj sources) name) with
         | Some remote => callback (inr (Remote remote)) st
         | None => TypeError (log Uncaught st)
         end
       ∧ (truthy_member (get (VObj sources) name) = true →
            current_source (_source st) (VObj sources) = VStr name)
       ∧ (truthy_member (get (VObj sources) name) = false →
            current_source (_source st) (VObj sources) = VStr LOCAL)).
Proof.
  intros Hhit Hd Hsources current.
  assert (currentStore cipher JSON_parse TypeError RemoteStore callback st
          = getStore cipher JSON_parse TypeError RemoteStore current callback st) as ->.
  { unfold currentStore. rewrite (load_cached _ _ _ _ _ Hhit), Hd.
    change (prop (VObj d)) with (obj_get d). rewrite Hsources.
    unfold current, candidate_source, override.
    destruct (_source st) as [s|]; [|done].
    by destruct (truthy (Some (VStr s))). }
  unfold getStore. rewrite (load_cached _ _ _ _ _ Hhit). split.
  - intros Hlocal. destruct current as [c|]; [|done].
    unfold names_local in Hlocal. by rewrite Hlocal.
  - intros name Hcur Hremote. unfold current_source. fold current.
    rewrite Hcur in Hremote |- *. unfold names_local in Hremote. rewrite Hremote, Hd.
    change (prop (VObj d)) with (obj_get d). rewrite Hsources.
    change (to_key (VStr name)) with name.
    apply orb_false_iff in Hremote as [Htruthy _].
    rewrite Htruthy. split_and!; [done | by intros -> | by intros ->].
Qed.

(** X12. A dump followed by a load that does not use the cache gives
    back a new object holding the canonical form of the document that was
    dumped, provided the cipher decrypts what it encrypted, the parser
    reads back what the printer printed, and the file can be written and
    read. *)
Theorem dump_load_roundtrip st config ciphertext
    (callback : error + nat → state → Ans) :
  let document := deref st config in
  let json := JSON_stringify (sort document) in
  _cache st = false →
  write_fault st = None →
  read_fault st = None →
  encrypt cipher json = inr ciphertext →
  decrypt cipher ciphertext = inr json →
  JSON_parse json = Some (sort document) →
  ∃ st',
    Dump config (λ _, load cipher JSON_parse callback) st
    = callback (inr (length (heap st))) st'
    ∧ heap st' = heap st ++ [sort document]
    ∧ deref st' (length (heap st)) = sort document
    ∧ file st' = Some ciphertext.
Proof.
  intros document json Hoff Hwrite Hread Henc Hdec Hparse. eexists.
  unfold dump. fold document. fold json. rewrite Henc. simpl. rewrite Hwrite.
  unfold load, cached, readFile. simpl. rewrite Hoff, Hread, Hdec, Hparse.
  simpl. split; [reflexivity|]. split_and!; [done | | done].
  unfold deref. simpl. rewrite lookup_app_r by lia.
  by rewrite Nat.sub_diag.
Qed.

Lemma dump_ends st config :
  ∃ st',
    (∀ B (k : option error → state → B),
       dump cipher JSON_stringify config k st = k (write_fault st) st')
    ∧ heap st' = heap st
    ∧ _cache st' = _cache st
    ∧ _configCache st' = _configCache st
    ∧ (write_fault st ≠ None → file st' = file st).
Proof.
  unfold dump. simpl. destruct (write_fault st) as [e|] eqn:Hw.
  - eexists. split; [intros B k; reflexivity|]. by split_and!.
  - eexists. split; [intros B k; reflexivity|]. by split_and!.
Qed.


(** X14. After [saveService] under a name other than [__proto__],
    whether or not the write succeeds, [listServices] lists the service
    next to those saved before, and [serviceSettings] no longer answers
    [null] for it. *)
Theorem saveService_then_listed st config d service settings
    (got_settings : error + option obj → state → Ans)
    (got_names : error + list string → state → Ans) :
  cached st = Some config →
  deref st config = VObj d →
  is_mapping_or_absent (obj_get d "services") = true →
  service ≠ "__proto__" →
  ∃ st',
    (∀ k : option error → state → Ans,
       saveService cipher JSON_parse JSON_stringify TypeError service settings
                   k st
       = k (write_fault st) st')
    ∧ (∃ names,
         saveService cipher JSON_parse JSON_stringify TypeError service settings
           (λ _, listServices cipher JSON_parse TypeError got_names) st
         = got_names (inr names) st'
         ∧ service ∈ names
         ∧ ∀ other, other ∈ obj_keys (props (or_empty (obj_get d "services"))) →
             other ∈ names)
    ∧ ∃ saved,
        saveService cipher JSON_parse JSON_stringify TypeError service settings
          (λ _, serviceSettings cipher JSON_parse TypeError service false
                                got_settings) st
        = got_settings (inr (Some saved)) st'.
Proof.
  intros Hhit Hd Hok Hplain.
  assert (∃ s, or_empty (obj_get d "services") = VObj s) as [s Hs].
  { destruct (mapping_or_absent_or_empty _ Hok) as [[_ ->]|(o & _ & ->)]; eauto. }
  set (updated := extend (extend [] settings) (or_empty (obj_get s service))).
  set (st2 := assign config "services"
                (VObj (obj_set s service (VObj updated)))
                (assign config "services" (VObj s) st)).
  destruct (dump_ends st2 config) as (st' & Hdump & Hheap & Hc & Hcc & _).
  exists st'.
  assert (∀ k : option error → state → Ans,
            saveService cipher JSON_parse JSON_stringify TypeError service
                        settings k st
            = k (write_fault st) st') as Hfirst.
  { intros k. unfold saveService.
    rewrite (load_cached _ _ _ _ _ Hhit), Hd. cbv beta iota.
    rewrite (deref_assign _ _ _ _ _ Hd), prop_set_prop, decide_True by done.
    change (prop (VObj d)) with (obj_get d). rewrite Hs. cbv beta iota.
    rewrite member_or_empty_get.
    change (prop (VObj s) service) with (obj_get s service).
    unfold set_prop. rewrite obj_assign_plain by done.
    fold updated. fold st2. by rewrite Hdump. }
  destruct (cached_kept st st' config
              (obj_set (obj_set d "services" (VObj s)) "services"
                       (VObj (obj_set s service (VObj updated))))
              Hhit Hc Hcc) as [Hhit' Hd'].
  { rewrite Hheap. apply heap_assign; [|done]. by apply deref_assign. }
  split; [exact Hfirst|].
  assert (∀ o x, obj_get (obj_set o "services" x) "services" = Some x) as Hget.
  { intros o x. by rewrite obj_get_set, decide_True. }
  split.
  - eexists. rewrite Hfirst. unfold listServices.
    rewrite (load_cached _ _ _ _ _ Hhit'), Hd'.
    change (prop (VObj ?o)) with (obj_get o). rewrite Hget. simpl.
    split; [reflexivity|]. split.
    + rewrite js_sort_perm, elem_of_obj_keys_set. by left.
    + intros other Hin. rewrite Hs in Hin.
      rewrite js_sort_perm, elem_of_obj_keys_set. by right.
  - eexists. rewrite Hfirst. unfold serviceSettings.
    rewrite (load_cached _ _ _ _ _ Hhit'), Hd'.
    change (prop (VObj ?o)) with (obj_get o). rewrite Hget.
    change (or_empty (Some (VObj ?o))) with (VObj o).
    rewrite (get_own _ service (VObj updated))
      by (by rewrite prop_set_prop, decide_True).
    reflexivity.
Qed.

(** X16. A file that decrypts and parses to [null] is not reported as
    unreadable: [load] answers [null] as the document, and every
    operation that looks at the document then throws, calls no callback
    and writes nothing.  [getStore] for the local source still answers,
    and [currentStore], which looks at the document only when there is
    no override, goes on to [getStore] when there is one. *)
Theorem null_document_throws st config st1 service settings includeGlobal name
    (finished : option error → state → Ans)
    (got_settings : error + option obj → state → Ans)
    (got_sources : error + list string * value → state → Ans)
    (got_names : error + list string → state → Ans)
    (got_store : error + store R → state → Ans)
    (got_export : error + option value * option value → state → Ans) :
  loaded st = (inr config, st1) →
  deref st1 config = VNull →
  names_local (Some name) = false →
  let thrown := TypeError (log Uncaught st1) in
  clear cipher JSON_parse JSON_stringify TypeError finished st = thrown
  ∧ saveGlobals cipher JSON_parse JSON_stringify TypeError settings finished st
    = thrown
  ∧ saveService cipher JSON_parse JSON_stringify TypeError service settings
                finished st
    = thrown
  ∧ deleteGlobals cipher JSON_parse JSON_stringify TypeError finished st
    = thrown
  ∧ deleteService cipher JSON_parse JSON_stringify TypeError service finished st
    = thrown
  ∧ import cipher JSON_parse JSON_stringify TypeError settings finished st
    = thrown
  ∧ serviceSettings cipher JSON_parse TypeError service includeGlobal
                    got_settings st
    = thrown
  ∧ listSources cipher JSON_parse TypeError got_sources st = thrown
  ∧ listServices cipher JSON_parse TypeError got_names st = thrown
  ∧ export cipher JSON_parse TypeError got_export st = thrown
  ∧ (override (_source st) = None →
     currentStore cipher JSON_parse TypeError RemoteStore got_store st = thrown)
  ∧ (∀ current, override (_source st) = Some current →
     currentStore cipher JSON_parse TypeError RemoteStore got_store st
     = getStore cipher JSON_parse TypeError RemoteStore (Some current)
                got_store st1)
  ∧ getStore cipher JSON_parse TypeError RemoteStore (Some name) got_store st
    = thrown
  ∧ getStore cipher JSON_parse TypeError RemoteStore None got_store st
    = got_store (inr ThisStore) st1.
Proof.
  intros Hload Hd Hremote thrown. unfold names_local in Hremote.
  destruct (load_preserves _ _ _ _ _ Hload) as (_ & _ & _ & _ & _ & Hsource).
  unfold clear, saveGlobals, saveService, deleteGlobals, deleteService, import,
    serviceSettings, listSources, listServices, currentStore, export.
  split_and!;
    try (rewrite load_cps, Hload; cbn [fst snd]; rewrite ?Hd; reflexivity).
  - intros Hnone. rewrite load_cps, Hload. cbn [fst snd].
    by rewrite Hsource, Hnone, Hd.
  - intros current Hsome. rewrite load_cps, Hload. cbn [fst snd].
    by rewrite Hsource, Hsome.
  - unfold getStore. rewrite load_cps, Hload. cbn [fst snd].
    by rewrite Hremote, Hd.
  - unfold getStore. by rewrite load_cps, Hload.
Qed.

(** X17. For a document whose [sources] is a mapping or absent, and a
    chosen name that no member of [Object.prototype] bears, the current
    source [listSources] reports is the local one or a key of [sources]
    with a truthy value. *)
Theorem listSources_current_resolves st config st1 d
    (callback : error + list string * value → state → Ans) :
  loaded st = (inr config, st1) →
  deref st1 config = VObj d →
  is_mapping_or_absent (obj_get d "sources") = true →
  let sources := or_empty (obj_get d "sources") in
  plain_name (candidate_source (_source st) sources) = true →
  ∃ names current,
    listSources cipher JSON_parse TypeError callback st
    = callback (inr (names, current)) st1
    ∧ (current = VStr LOCAL
       ∨ (to_key current ∈ obj_keys (props sources)
          ∧ truthy (prop sources (to_key current)) = true)).
Proof.
  intros Hload Hd Hok sources Hplain.
  destruct (load_preserves _ _ _ _ _ Hload) as (_ & _ & _ & _ & _ & Hsource).
  eexists _, _. unfold listSources.
  rewrite load_cps, Hload. simpl. rewrite Hd.
  change (prop (VObj d)) with (obj_get d). fold sources.
  split; [reflexivity|]. unfold current_source. rewrite Hsource.
  destruct (candidate_source (_source st) sources) as [c|]; [|by left].
  destruct c as [| | |s| |]; try done. apply bool_decide_eq_true in Hplain.
  change (to_key (VStr s)) with s. rewrite truthy_member_plain by done.
  destruct (negb (truthy (Some (VStr s))) || negb (truthy (prop sources s)))
    eqn:Htest; [by left|].
  right. apply orb_false_iff in Htest as [_ Hkey].
  apply negb_false_iff in Hkey. split; [|done].
  change (to_key (VStr s)) with s.
  destruct (decide (s ∈ obj_keys (props sources))) as [|Hn]; [done|].
  apply obj_get_None in Hn. unfold prop in Hkey. by rewrite Hn in Hkey.
Qed.
End Rest.

Section Reload.
Context (cipher : Cipher).
Context (JSON_parse : string → option value).
Context {Ans : Type}.

End Reload.

(** ** More examples on concrete stores *)

Lemma listServices_sorted_witness :
  listServices demo_cipher demo_parse Thrown Names services_store
  = Names (inr ["alpha"; "zeta"]) services_store.
Proof.
  destruct (listServices_sorted demo_cipher demo_parse Thrown
              services_store 0 services_store _ Names eq_refl eq_refl)
    as (names & Hrun & _ & _ & Horder).
  rewrite Hrun. f_equal. f_equal. symmetry.
  apply (Horder [("zeta", VNull); ("alpha", VNull)]). reflexivity.
Defined.

Lemma load_error_is_passed_on_witness :
  clear demo_cipher demo_parse demo_stringify Thrown Finished
        (new_store (Some "garbage") true)
  = Finished (Some StoreUnreadable)
      (log (Decrypt "garbage") (log ReadFile (new_store (Some "garbage") true)))
  ∧ export demo_cipher demo_parse Thrown Exported
           (new_store (Some "garbage") true)
    = Exported (inl StoreUnreadable)
        (log (Decrypt "garbage") (log ReadFile (new_store (Some "garbage") true))).
Proof.
  destruct (load_error_is_passed_on demo_cipher demo_parse demo_stringify Thrown
              demo_RemoteStore
              (new_store (Some "garbage") true) StoreUnreadable
              (log (Decrypt "garbage")
                   (log ReadFile (new_store (Some "garbage") true)))
              "github" demo_settings true None
              Finished Settings Sources Names Store Exported eq_refl)
    as (Hclear & _ & _ & _ & _ & _ & _ & _ & _ & _ & _ & Hexport).
  split; [exact Hclear | exact Hexport].
Defined.

Lemma fresh_store_witness :
  listSources demo_cipher demo_parse Thrown Sources
              (setSource "work" (new_store None true))
  = Sources (inr ([LOCAL], VStr LOCAL))
      (set_heap [empty_document]
         (log ReadFile (setSource "work" (new_store None true))))
  ∧ deleteService demo_cipher demo_parse demo_stringify Thrown "github"
                  Finished (setSource "work" (new_store None true))
    = Finished (Some (ServiceNotConfigured "github"))
        (set_heap [empty_document]
           (log ReadFile (setSource "work" (new_store None true)))).
Proof.
  destruct (fresh_store demo_cipher demo_parse demo_stringify Thrown
              demo_RemoteStore
              (setSource "work" (new_store None true)) ENOENT "github"
              Finished Settings Sources Names Store Exported eq_refl eq_refl)
    as (_ & Hsources & _ & _ & _ & Hdelete & _).
  split.
  - apply Hsources. intros s [= <-].
    apply (bool_decide_eq_false_1 _). reflexivity.
  - apply Hdelete. apply (bool_decide_eq_false_1 _). reflexivity.
Defined.

Lemma clear_spec_witness :
  ∃ st2,
    clear demo_cipher demo_parse demo_stringify Thrown Finished demo_store
    = dump demo_cipher demo_stringify 0 Finished st2
    ∧ prop (deref st2 0) "global" = Some (VObj [])
    ∧ prop (deref st2 0) "services" = Some (VObj [])
    ∧ prop (deref st2 0) "sources" = Some demo_sources.
Proof.
  destruct (clear_spec demo_cipher demo_parse demo_stringify Thrown
              demo_store 0 demo_store _ Finished eq_refl eq_refl)
    as (st2 & Hrun & Hglobal & Hservices & _ & Hrest & _).
  exists st2. split_and!; [exact Hrun | exact Hglobal | exact Hservices |].
  rewrite (Hrest "sources"); [reflexivity | discriminate | discriminate].
Defined.

Lemma deleteGlobals_spec_witness :
  ∃ st2,
    deleteGlobals demo_cipher demo_parse demo_stringify Thrown Finished
                  demo_store
    = dump demo_cipher demo_stringify 0 Finished st2
    ∧ prop (deref st2 0) "global" = Some (VObj [])
    ∧ stored_settings (deref st2 0) "github"
      = Some (VObj [("user", VStr "carol")]).
Proof.
  destruct (deleteGlobals_spec demo_cipher demo_parse demo_stringify Thrown
              demo_store 0 demo_store _ Finished eq_refl eq_refl)
    as (st2 & Hrun & Hglobal & _ & Hstored & _).
  exists st2. split_and!; [exact Hrun | exact Hglobal |].
  rewrite (Hstored "github"). reflexivity.
Defined.

Lemma saveService_frame_witness :
  ∃ updated st2,
    saveService demo_cipher demo_parse demo_stringify Thrown "gitlab"
                demo_settings Finished demo_store
    = dump demo_cipher demo_stringify 0 Finished st2
    ∧ stored_settings (deref st2 0) "gitlab" = Some (VObj updated)
    ∧ stored_settings (deref st2 0) "github"
      = Some (VObj [("user", VStr "carol")])
    ∧ prop (deref st2 0) "sources" = Some demo_sources.
Proof.
  assert ("gitlab" ≠ "__proto__") as Hplain by discriminate.
  destruct (saveService_frame demo_cipher demo_parse demo_stringify Thrown
              demo_store 0 demo_store _ "gitlab" demo_settings Finished
              eq_refl eq_refl eq_refl Hplain)
    as (updated & st2 & Hrun & Hnew & Hothers & Hrest & _).
  exists updated, st2. split_and!; [exact Hrun | exact Hnew | |].
  - rewrite (Hothers "github"); [reflexivity | discriminate].
  - rewrite (Hrest "sources"); [reflexivity | discriminate].
Defined.

Lemma saveService_proto_witness :
  ∃ st2,
    saveService demo_cipher demo_parse demo_stringify Thrown "__proto__"
                demo_settings Finished demo_store
    = dump demo_cipher demo_stringify 0 Finished st2
    ∧ stored_settings (deref st2 0) "__proto__" = None
    ∧ obj_keys (props (or_empty (prop (deref st2 0) "services"))) = ["github"].
Proof.
  destruct (saveService_proto demo_cipher demo_parse demo_stringify Thrown
              demo_store 0 demo_store _ demo_settings Finished
              eq_refl eq_refl eq_refl eq_refl)
    as (st2 & Hrun & Hstored & Hkeys & _).
  exists st2. split_and!; [exact Hrun | | exact Hkeys].
  rewrite (Hstored "__proto__"). reflexivity.
Defined.

Lemma saveGlobals_frame_witness :
  ∃ updated st2,
    saveGlobals demo_cipher demo_parse demo_stringify Thrown demo_settings
                Finished demo_store
    = dump demo_cipher demo_stringify 0 Finished st2
    ∧ prop (deref st2 0) "global" = Some (VObj updated)
    ∧ stored_settings (deref st2 0) "github"
      = Some (VObj [("user", VStr "carol")]).
Proof.
  destruct (saveGlobals_frame demo_cipher demo_parse demo_stringify Thrown
              demo_store 0 demo_store _ demo_settings Finished eq_refl eq_refl)
    as (updated & st2 & Hrun & Hglobal & _ & Hstored & _).
  exists updated, st2. split_and!; [exact Hrun | exact Hglobal |].
  rewrite (Hstored "github"). reflexivity.
Defined.

Lemma getStore_spec_witness :
  getStore demo_cipher demo_parse Thrown demo_RemoteStore (Some (VStr LOCAL)) Store demo_store
  = Store (inr ThisStore) demo_store
  ∧ getStore demo_cipher demo_parse Thrown demo_RemoteStore (Some (VStr "backup")) Store
             demo_store
    = Store (inr (Remote (VStr "backup", None))) demo_store
  ∧ getStore demo_cipher demo_parse Thrown demo_RemoteStore
             (Some (VStr "constructor")) Store demo_store
    = Store (inr (Remote (VStr "constructor", Some (Inherited "constructor"))))
            demo_store.
Proof.
  split_and!.
  - apply (getStore_spec demo_cipher demo_parse Thrown demo_RemoteStore
             demo_store 0 demo_store (Some (VStr LOCAL)) Store eq_refl).
    reflexivity.
  - destruct (getStore_spec demo_cipher demo_parse Thrown demo_RemoteStore
                demo_store 0 demo_store (Some (VStr "backup")) Store eq_refl)
      as [_ Hremote].
    destruct (Hremote "backup" _ eq_refl eq_refl eq_refl) as [Hsources _].
    apply (Hsources _ eq_refl).
  - destruct (getStore_spec demo_cipher demo_parse Thrown demo_RemoteStore
                demo_store 0 demo_store (Some (VStr "constructor")) Store eq_refl)
      as [_ Hremote].
    destruct (Hremote "constructor" _ eq_refl eq_refl eq_refl) as [Hsources _].
    apply (Hsources _ eq_refl).
Defined.

Lemma currentStore_spec_witness :
  currentStore demo_cipher demo_parse Thrown demo_RemoteStore Store
               (setSource "backup" demo_store)
  = Store (inr (Remote (VStr "backup", None))) (setSource "backup" demo_store)
  ∧ current_source (Some "backup") demo_sources = VStr LOCAL.
Proof.
  destruct (currentStore_spec demo_cipher demo_parse Thrown demo_RemoteStore
              (setSource "backup" demo_store) 0 _ _ Store
              eq_refl eq_refl eq_refl)
    as [_ Hremote].
  destruct (Hremote "backup" eq_refl eq_refl) as (Hrun & _ & Hlocal).
  split; [exact Hrun | exact (Hlocal eq_refl)].
Defined.

Lemma dump_load_roundtrip_witness :
  ∃ st',
    dump demo_cipher demo_stringify 0
         (λ _, load demo_cipher canonical_parse Loaded) uncached_store
    = Loaded (inr 1) st'
    ∧ deref st' 1 = sort demo_document
    ∧ file st' = Some "!demo".
Proof.
  destruct (dump_load_roundtrip demo_cipher canonical_parse demo_stringify
              uncached_store 0 "!demo" Loaded
              eq_refl eq_refl eq_refl eq_refl eq_refl eq_refl)
    as (st' & Hrun & _ & Hdoc & Hfile).
  exists st'. split_and!; [exact Hrun | exact Hdoc | exact Hfile].
Defined.


Lemma saveService_then_listed_witness :
  ∃ st' names,
    saveService demo_cipher demo_parse demo_stringify Thrown "gitlab"
      demo_settings (λ _, listServices demo_cipher demo_parse Thrown Names)
      demo_store
    = Names (inr names) st'
    ∧ "gitlab" ∈ names ∧ "github" ∈ names.
Proof.
  assert ("gitlab" ≠ "__proto__") as Hplain by discriminate.
  destruct (saveService_then_listed
              demo_cipher demo_parse demo_stringify Thrown
              demo_store 0 _ "gitlab" demo_settings Settings Names
              eq_refl eq_refl eq_refl Hplain)
    as (st' & _ & (names & Hrun & Hnew & Hold) & _).
  exists st', names. split_and!; [exact Hrun | exact Hnew |].
  apply Hold. apply (bool_decide_eq_true_1 _). reflexivity.
Defined.


Lemma null_document_throws_witness :
  load demo_cipher null_parse Loaded null_store
  = Loaded (inr 0)
      (set_configCache 0
         (set_heap [VNull] (log (Decrypt "!null") (log ReadFile null_store))))
  ∧ listServices demo_cipher null_parse Thrown Names null_store
    = Thrown
        (log Uncaught
           (set_configCache 0
              (set_heap [VNull]
                 (log (Decrypt "!null") (log ReadFile null_store))))).
Proof.
  split; [reflexivity|].
  destruct (null_document_throws demo_cipher null_parse demo_stringify Thrown
              demo_RemoteStore null_store 0
              (set_configCache 0
                 (set_heap [VNull]
                    (log (Decrypt "!null") (log ReadFile null_store))))
              "github" demo_settings true (VStr "work")
              Finished Settings Sources Names Store Exported
              eq_refl eq_refl eq_refl)
    as (_ & _ & _ & _ & _ & _ & _ & _ & Hnames & _).
  exact Hnames.
Defined.

Lemma listSources_current_resolves_witness :
  ∃ names current,
    listSources demo_cipher demo_parse Thrown Sources demo_store
    = Sources (inr (names, current)) demo_store
    ∧ (current = VStr LOCAL
       ∨ (to_key current ∈ obj_keys (props demo_sources)
          ∧ truthy (prop demo_sources (to_key current)) = true)).
Proof.
  destruct (listSources_current_resolves demo_cipher demo_parse Thrown
              demo_store 0 demo_store _ Sources eq_refl eq_refl eq_refl eq_refl)
    as (names & current & Hrun & Hcurrent).
  exists names, current. split; [exact Hrun | exact Hcurrent].
Defined.
